(** * Top sites of the new-tab page: app/browser/api/topSites.js

    A shallow embedding of the module that ranks visited sites, merges the
    user's pinned entries, removes duplicate domains and pads the grid with
    the static catalog, together with the properties of its pipeline.

    Immutable.js collections are modelled by lists: the history map by the
    list of its entries in iteration order (keys are the map's keys), an
    Immutable List by a list.  Numbers are integers.  A field read with
    [get] that may be missing is an [option]. *)

From Stdlib Require Import ZArith List Bool Lia Permutation Sorted.
From stdpp Require Import base gmap strings list.

Local Open Scope Z_scope.

Set Default Proof Using "Type".

(** ** Data model *)

(** The value stored under ['bookmarked']: [bookmarkKey.get(0, false)] is the
    first key of the bookmark cache entry, or [false]. *)
Inductive Bookmarked : Type :=
  | NotBookmarked
  | BookmarkKey (k : string).

(** A site record, an Immutable Map; [None] is a field that is not there.
    The pinned entries are such records or [null] (entries that are no
    Immutable Map are not modelled). *)
Record Site : Type := mkSite {
  key : option string;
  location : option string;
  count : option Z;
  lastAccessedTime : option Z;
  bookmarked : option Bookmarked
}.

Global Instance Bookmarked_eq_dec : EqDecision Bookmarked.
Proof. solve_decision. Defined.

Global Instance Site_eq_dec : EqDecision Site.
Proof. solve_decision. Defined.

Definition set_bookmarked (b : Bookmarked) (site : Site) : Site :=
  {| key := key site; location := location site; count := count site;
     lastAccessedTime := lastAccessedTime site; bookmarked := Some b |}.

Definition set_key (k : string) (site : Site) : Site :=
  {| key := Some k; location := location site; count := count site;
     lastAccessedTime := lastAccessedTime site; bookmarked := bookmarked site |}.

(** The application state, seen through the accessors the module calls:
    [historyState.getSites], [aboutNewTabState.getPinnedTopSites],
    [aboutNewTabState.getIgnoredTopSites] and
    [bookmarkLocationCache.getCacheKey]. *)
Record AppState : Type := mkAppState {
  getSites : list (string * Site);
  getPinnedTopSites : list (option Site);
  getIgnoredTopSites : list string;
  getCacheKey : option string -> list string
}.

(** ** Module state and effects *)

(** The module-level variables [minCountOfTopSites] and
    [minAccessOfTopSites] ([None] is [undefined]) and the lines written by
    [console.error]. *)
Record World : Type := mkWorld {
  minCountOfTopSites : option Z;
  minAccessOfTopSites : option Z;
  console : list string
}.

(** How a JavaScript computation ends: normally, or by a thrown error. *)
Inductive Completion (A : Type) : Type :=
  | Normal (a : A)
  | Throw (e : string).
Arguments Normal {A} a.
Arguments Throw {A} e.

(** State and exceptions: what was written before a throw stays written. *)
Definition M (A : Type) : Type := World -> Completion A * World.

Global Instance M_ret : MRet M := fun A (a : A) w => (Normal a, w).

Global Instance M_bind : MBind M := fun A B (f : A -> M B) (m : M A) w =>
  match m w with
  | (Normal a, w') => f a w'
  | (Throw e, w') => (Throw e, w')
  end.

Definition lift {A} (c : Completion A) : M A := fun w => (c, w).

Definition tryCatch {A} (body : M A) (handler : string -> M A) : M A :=
  fun w => match body w with
           | (Normal a, w') => (Normal a, w')
           | (Throw e, w') => handler e w'
           end.

Definition getWorld : M World := fun w => (Normal w, w).

Definition setMinCount (c : option Z) : M unit :=
  fun w => (Normal tt,
            {| minCountOfTopSites := c;
               minAccessOfTopSites := minAccessOfTopSites w;
               console := console w |}).

Definition setMinAccess (a : option Z) : M unit :=
  fun w => (Normal tt,
            {| minCountOfTopSites := minCountOfTopSites w;
               minAccessOfTopSites := a;
               console := console w |}).

Definition console_error (e : string) : M unit :=
  fun w => (Normal tt,
            {| minCountOfTopSites := minCountOfTopSites w;
               minAccessOfTopSites := minAccessOfTopSites w;
               console := console w ++ [e] |}).

(** ** Values with JavaScript's defaults *)

(** [site.get(f, 0)], [sites.getIn([i, f], 0)] and [site.get(f) || 0]. *)
Definition orZero (v : option Z) : Z := default 0 v.

(** [a < b] on values that may be [undefined]: a comparison with
    [undefined] is false. *)
Definition jsLt (a b : option Z) : bool :=
  match a, b with
  | Some x, Some y => x <? y
  | _, _ => false
  end.

(** [!site.get('location')]: a missing or empty string is falsy. *)
Definition noLocation (site : Site) : bool :=
  match location site with
  | None => true
  | Some loc => bool_decide (loc = EmptyString)
  end.

(** [gridSites.filter(site => site != null)]. *)
Fixpoint dropEmpty {A} (slots : list (option A)) : list A :=
  match slots with
  | [] => []
  | Some a :: rest => a :: dropEmpty rest
  | None :: rest => dropEmpty rest
  end.

(** Immutable's [sort(comparator)] hands the entries to the engine's array
    sort with [comparator(a, b) || index(a) - index(b)].  Where the
    comparator is an order on the entries this is the stable sort, and
    [sortBy] is that list: [insertSorted] places [x], which precedes every
    entry of [l] in the input, before the first entry that the comparator
    does not put strictly before [x].  Where the comparator is no order on
    the entries (three or more records of one count, one of them without
    access time) the engine's result is its own and [sortBy] need not be
    it; of such inputs only that the result is a rearrangement of the
    entries, and the order of two entries alone, is used below. *)
Section Sort.
Context {A : Type} (comparator : A -> A -> Z).

Fixpoint insertSorted (x : A) (l : list A) : list A :=
  match l with
  | [] => [x]
  | y :: rest =>
      if comparator x y <=? 0 then x :: y :: rest
      else y :: insertSorted x rest
  end.

Fixpoint sortBy (l : list A) : list A :=
  match l with
  | [] => []
  | x :: rest => insertSorted x (sortBy rest)
  end.
End Sort.

Definition aboutNewTabMaxEntries : nat := 100.

(** ** The module *)

(** What [urlParse] returns; of the parsed URL only the hostname is read,
    a value the set [siteDomains] compares. *)
Record Url : Type := mkUrl { hostname : string }.

Section TopSites.

(** Imported by the module: [isSourceAboutUrl] of appUrlUtil, the URL parser
    (it may throw) and the catalog [newTabData.topSites]. *)
Variable isSourceAboutUrl : option string -> bool.
Variable urlParse : string -> Completion Url.
Variable staticData : list Site.

Definition isPinned (state : AppState) (siteKey : option string) : bool :=
  existsb (fun site => match site with
                       | None => false
                       | Some site => bool_decide (key site = siteKey)
                       end)
          (getPinnedTopSites state).

Definition isIgnored (state : AppState) (siteKey : option string) : bool :=
  bool_decide (siteKey ∈ Some <$> getIgnoredTopSites state).

Definition sortCountDescending (left right : Site) : Z :=
  let leftCount := orZero (count left) in
  let rightCount := orZero (count right) in
  if leftCount <? rightCount then 1
  else if rightCount <? leftCount then -1
  else if jsLt (lastAccessedTime left) (lastAccessedTime right) then 1
  else if jsLt (lastAccessedTime right) (lastAccessedTime left) then -1
  else 0.

(** The callback of [list.filter] in [removeDuplicateDomains]; the set
    [siteDomains] it closes over is passed and returned. *)
Definition keepDomain (siteDomains : gset string) (site : Site)
  : M (bool * gset string) :=
  match location site with
  | None => mret (false, siteDomains)
  | Some loc =>
      if bool_decide (loc = EmptyString) then mret (false, siteDomains)
      else
        tryCatch
          (url ← lift (urlParse loc);
           if bool_decide (hostname url ∈ siteDomains)
           then mret (false, siteDomains)
           else mret (true, {[hostname url]} ∪ siteDomains))
          (fun e => console_error e;; mret (false, siteDomains))
  end.

Fixpoint filterDomains (siteDomains : gset string) (sites : list Site)
  : M (list Site) :=
  match sites with
  | [] => mret []
  | site :: rest =>
      '(keep, siteDomains) ← keepDomain siteDomains site;
      kept ← filterDomains siteDomains rest;
      mret (if keep : bool then site :: kept else kept)
  end.

Definition removeDuplicateDomains (sites : list Site) : M (list Site) :=
  filterDomains ∅ sites.

Definition clearTopSiteCacheData : M unit :=
  setMinCount None;; setMinAccess None.

(** The predicate of the first [filter] of [getTopSiteData], with the two
    module variables as read when it runs. *)
Definition isCandidate (state : AppState) (w : World)
    (entry : string * Site) : bool :=
  let key := entry.1 in
  let site := entry.2 in
  negb (isSourceAboutUrl (location site)) &&
  negb (isPinned state (Some key)) &&
  negb (isIgnored state (Some key)) &&
  match minCountOfTopSites w with
  | None => true
  | Some m => m <=? orZero (count site)
  end &&
  match minAccessOfTopSites w with
  | None => true
  | Some m => m <=? orZero (lastAccessedTime site)
  end.

Definition candidateSites (state : AppState)
  : M (list (string * Site)) :=
  w ← getWorld;
  mret (List.filter (isCandidate state w) (getSites state)).

Definition bookmarkedOf (state : AppState) (site : Site) : Bookmarked :=
  match getCacheKey state (location site) with
  | [] => NotBookmarked
  | k :: _ => BookmarkKey k
  end.

(** [.sort(sortCountDescending).slice(0, aboutNewTabMaxEntries).map(..)
    .toList()]: the callback of [map] on the keyed collection receives the
    entry's key of the history map. *)
Definition rankSites (state : AppState) (candidates : list (string * Site))
  : list Site :=
  (fun entry : string * Site =>
     set_key entry.1 (set_bookmarked (bookmarkedOf state entry.2) entry.2))
  <$> take aboutNewTabMaxEntries
        (sortBy (fun l r => sortCountDescending l.2 r.2) candidates).

(** The body of the [for] loop over [sites]. *)
Definition updateMin (site : Site) : M unit :=
  let count := orZero (count site) in
  let access := orZero (lastAccessedTime site) in
  w ← getWorld;
  (match minCountOfTopSites w with
   | None => setMinCount (Some count)
   | Some m => if count <? m then setMinCount (Some count) else mret tt
   end);;
  w ← getWorld;
  match minAccessOfTopSites w with
  | None => setMinAccess (Some access)
  | Some m => if access <? m then setMinAccess (Some access) else mret tt
  end.

Fixpoint updateMins (sites : list Site) : M unit :=
  match sites with
  | [] => mret tt
  | site :: rest => updateMin site;; updateMins rest
  end.

Definition preDefined (state : AppState) : list Site :=
  (fun site => set_bookmarked (bookmarkedOf state site) site)
  <$> List.filter
        (fun site => negb (isPinned state (key site)) &&
                     negb (isIgnored state (key site)))
        staticData.

(** The callback of [getPinnedTopSites(state).map] for one slot: the slot's
    content and what is left of [sites]. *)
Definition gridSlot (sites : list Site) (pinned : option Site)
  : option Site * list Site :=
  match pinned with
  | Some p =>
      (Some p,
       List.filter (fun site => negb (bool_decide (key site = key p))) sites)
  | None => (head sites, tail sites)
  end.

Fixpoint gridSites (sites : list Site) (pinned : list (option Site))
  : list (option Site) * list Site :=
  match pinned with
  | [] => ([], sites)
  | p :: rest =>
      let slot := gridSlot sites p in
      let grid := gridSites slot.2 rest in
      (slot.1 :: grid.1, grid.2)
  end.

(** [appActions.topSiteDataAvailable(gridSites)]: the grid handed to the
    action is the result of the run. *)
Definition topSiteDataAvailable (grid : list Site) : M (list Site) :=
  mret grid.

(** [state] is what [appStore.getState()] returns. *)
Definition getTopSiteData (state : AppState) : M (list Site) :=
  candidates ← candidateSites state;
  let sites := rankSites state candidates in
  updateMins sites;;
  sites ← removeDuplicateDomains sites;
  let sites :=
    if (length sites <? 18)%nat then sites ++ preDefined state else sites in
  let grid := (gridSites sites (getPinnedTopSites state)).1 in
  topSiteDataAvailable (dropEmpty grid).

End TopSites.

(** * Vocabulary of the properties *)

(** The world after [console.error] was called with each line of [es]. *)
Definition logged (w : World) (es : list string) : World :=
  {| minCountOfTopSites := minCountOfTopSites w;
     minAccessOfTopSites := minAccessOfTopSites w;
     console := console w ++ es |}.

(** One pass of the loop's test on a watermark. *)
Definition lowerTo (m : option Z) (v : Z) : option Z :=
  match m with
  | None => Some v
  | Some m => if v <? m then Some v else Some m
  end.

(** The smaller of two bounds, [None] standing for +infinity. *)
Definition minInf (a b : option Z) : option Z :=
  match a, b with
  | None, _ => b
  | _, None => a
  | Some x, Some y => Some (Z.min x y)
  end.

(** The minimum of a previous bound, +infinity when unset, and the values
    [vs]. *)
Definition minimumInf (previous : option Z) (vs : list Z) : option Z :=
  foldr (fun v acc => minInf (Some v) acc) previous vs.

(** The list [sites] as it stands when slot [i] is about to be filled. *)
Definition sitesBefore (sites : list Site) (pinned : list (option Site))
    (i : nat) : list Site :=
  (gridSites sites (take i pinned)).2.

(** The order the ranker is meant to produce, absent fields read as 0: a
    larger count first, and among equal counts a later access first. *)
Definition ranksNoLater (l r : Site) : Prop :=
  orZero (count r) < orZero (count l) ∨
  (orZero (count l) = orZero (count r) ∧
   orZero (lastAccessedTime r) <= orZero (lastAccessedTime l)).

(** The sites with count [c] and access time [t]. *)
Definition hasRank (c t : Z) (site : Site) : bool :=
  (orZero (count site) =? c) && (orZero (lastAccessedTime site) =? t).

Section Readings.

Variable isSourceAboutUrl : option string -> bool.
Variable urlParse : string -> Completion Url.
Variable staticData : list Site.

(** The hostname [keepDomain] obtains for a site, if it gets one. *)
Definition parsedHostname (site : Site) : option string :=
  match location site with
  | None => None
  | Some loc =>
      if bool_decide (loc = EmptyString) then None
      else match urlParse loc with
           | Normal url => Some (hostname url)
           | Throw _ => None
           end
  end.

(** The error [keepDomain] catches for a site, if the parser throws. *)
Definition parseError (site : Site) : option string :=
  match location site with
  | None => None
  | Some loc =>
      if bool_decide (loc = EmptyString) then None
      else match urlParse loc with
           | Normal _ => None
           | Throw e => Some e
           end
  end.

Fixpoint keptDomains (seen : gset string) (sites : list Site) : list Site :=
  match sites with
  | [] => []
  | site :: rest =>
      match parsedHostname site with
      | Some h =>
          if bool_decide (h ∈ seen) then keptDomains seen rest
          else site :: keptDomains ({[h]} ∪ seen) rest
      | None => keptDomains seen rest
      end
  end.

(** Of a run of [getTopSiteData] started in the world [w]: the ranked and
    truncated pool, the list the grid is filled from, and the world the run
    leaves. *)
Definition pool (state : AppState) (w : World) : list Site :=
  rankSites state
    (List.filter (isCandidate isSourceAboutUrl state w) (getSites state)).

Definition fillSites (state : AppState) (w : World) : list Site :=
  let sites := keptDomains ∅ (pool state w) in
  if (length sites <? 18)%nat then sites ++ preDefined staticData state
  else sites.

Definition worldAfter (state : AppState) (w : World) : World :=
  {| minCountOfTopSites :=
       foldl lowerTo (minCountOfTopSites w)
             ((orZero ∘ count) <$> pool state w);
     minAccessOfTopSites :=
       foldl lowerTo (minAccessOfTopSites w)
             ((orZero ∘ lastAccessedTime) <$> pool state w);
     console := console w ++ omap parseError (pool state w) |}.

(** The location of [site] is present, not empty, and parses to the hostname
    [h]. *)
Definition parsesTo (site : Site) (h : string) : Prop :=
  ∃ loc url,
    location site = Some loc ∧ loc ≠ EmptyString ∧
    urlParse loc = Normal url ∧ hostname url = h.

(** The site at index [i] has a location that parses to a hostname, and no
    site before it has a location that parses to the same hostname. *)
Definition firstOfHostname (sites : list Site) (i : nat) : Prop :=
  ∃ site h,
    sites !! i = Some site ∧ parsesTo site h ∧
    ∀ j site', (j < i)%nat → sites !! j = Some site' → ¬ parsesTo site' h.

End Readings.

(** ** Concrete inputs *)

Module Examples.

(** A parser for the examples: the hostname is the location itself, and the
    location ["bad"] does not parse. *)
Definition parse (loc : string) : Completion Url :=
  if bool_decide (loc = "bad"%string) then Throw "Invalid URL"%string
  else Normal {| hostname := loc |}.

Definition notAbout (loc : option string) : bool := false.

Definition visited (k : string) (c t : option Z) : Site :=
  {| key := Some k; location := Some k; count := c; lastAccessedTime := t;
     bookmarked := None |}.

Definition noBookmarks (loc : option string) : list string := [].

Definition unset : World :=
  {| minCountOfTopSites := None; minAccessOfTopSites := None; console := [] |}.

(** One visited site without an access time before one with the same count
    and a positive access time. *)
Definition untimed : Site := visited "a" (Some 1) None.
Definition timed : Site := visited "b" (Some 1) (Some 5).

Definition tieState : AppState :=
  {| getSites := [("a"%string, untimed); ("b"%string, timed)];
     getPinnedTopSites := [None; None];
     getIgnoredTopSites := [];
     getCacheKey := noBookmarks |}.

(** The same site pinned at two slots. *)
Definition pinnedTwice : AppState :=
  {| getSites := [];
     getPinnedTopSites := [Some timed; Some timed];
     getIgnoredTopSites := [];
     getCacheKey := noBookmarks |}.



(** Two visited sites, one pin and a catalog of one site. *)
Definition catalog : list Site := [visited "c" None None].

Definition mixed : AppState :=
  {| getSites := [("a"%string, untimed); ("b"%string, timed)];
     getPinnedTopSites := [None; Some (visited "p" None None); None; None];
     getIgnoredTopSites := [];
     getCacheKey := noBookmarks |}.

End Examples.

(** A history whose records all carry a count and an access time. *)
Module Timed.

Definition history : AppState :=
  {| getSites :=
       [("lo"%string, Examples.visited "lo" (Some 1) (Some 9));
        ("hi"%string, Examples.visited "hi" (Some 7) (Some 2));
        ("mid"%string, Examples.visited "mid" (Some 1) (Some 12))];
     getPinnedTopSites := [None; None; None];
     getIgnoredTopSites := [];
     getCacheKey := Examples.noBookmarks |}.

End Timed.

(** * Properties *)

(** Case analysis on every [<?] of the goal. *)
Ltac split_ltb :=
  repeat match goal with
         | |- context [?a <? ?b] => destruct (Z.ltb_spec a b)
         end.

(** ** Running the effectful parts *)

Section Runs.

Variable isSourceAboutUrl : option string -> bool.
Variable urlParse : string -> Completion Url.
Variable staticData : list Site.

Lemma logged_nil w : logged w [] = w.
Proof. destruct w; unfold logged; simpl. by rewrite app_nil_r. Qed.

Lemma logged_app w es es' : logged (logged w es) es' = logged w (es ++ es').
Proof. unfold logged; simpl. by rewrite app_assoc. Qed.

Lemma bind_run {A B} (m : M A) (f : A -> M B) w :
  (m ≫= f) w = match m w with
               | (Normal a, w') => f a w'
               | (Throw e, w') => (Throw e, w')
               end.
Proof. reflexivity. Qed.

Lemma keepDomain_run seen site w :
  keepDomain urlParse seen site w =
  (Normal (match parsedHostname urlParse site with
           | Some h => if bool_decide (h ∈ seen) then (false, seen)
                       else (true, {[h]} ∪ seen)
           | None => (false, seen)
           end),
   logged w (from_option (fun e => [e]) [] (parseError urlParse site))).
Proof.
  unfold keepDomain, parsedHostname, parseError.
  destruct (location site) as [loc|]; simpl; [|by rewrite logged_nil].
  case_bool_decide; simpl; [by rewrite logged_nil|].
  unfold tryCatch, lift. rewrite bind_run.
  destruct (urlParse loc) as [url|e]; simpl.
  - case_bool_decide; simpl; by rewrite logged_nil.
  - reflexivity.
Qed.

Lemma filterDomains_run seen sites w :
  filterDomains urlParse seen sites w =
  (Normal (keptDomains urlParse seen sites),
   logged w (omap (parseError urlParse) sites)).
Proof.
  revert seen w. induction sites as [|site rest IH]; intros seen w; simpl.
  - by rewrite logged_nil.
  - rewrite bind_run, keepDomain_run.
    destruct (parsedHostname urlParse site) as [h|]; [case_bool_decide|];
      rewrite bind_run, IH, logged_app;
      destruct (parseError urlParse site); reflexivity.
Qed.

Lemma updateMin_run site w :
  updateMin site w =
  (Normal tt,
   {| minCountOfTopSites :=
        lowerTo (minCountOfTopSites w) (orZero (count site));
      minAccessOfTopSites :=
        lowerTo (minAccessOfTopSites w) (orZero (lastAccessedTime site));
      console := console w |}).
Proof.
  unfold updateMin, lowerTo, mbind, M_bind, getWorld.
  destruct w as [[mc|] [ma|] c]; simpl;
    repeat (destruct (_ <? _); simpl); reflexivity.
Qed.

Lemma updateMins_run sites w :
  updateMins sites w =
  (Normal tt,
   {| minCountOfTopSites :=
        foldl lowerTo (minCountOfTopSites w) ((orZero ∘ count) <$> sites);
      minAccessOfTopSites :=
        foldl lowerTo (minAccessOfTopSites w)
              ((orZero ∘ lastAccessedTime) <$> sites);
      console := console w |}).
Proof.
  revert w. induction sites as [|site rest IH]; intros w; simpl.
  - by destruct w.
  - rewrite bind_run, updateMin_run, IH. reflexivity.
Qed.

Lemma getTopSiteData_run state w :
  getTopSiteData isSourceAboutUrl urlParse staticData state w =
  (Normal (dropEmpty
             (gridSites
                (fillSites isSourceAboutUrl urlParse staticData state w)
                (getPinnedTopSites state)).1),
   worldAfter isSourceAboutUrl urlParse state w).
Proof.
  unfold getTopSiteData, candidateSites, removeDuplicateDomains.
  rewrite !bind_run. unfold getWorld at 1. simpl.
  rewrite !bind_run, updateMins_run, bind_run, filterDomains_run.
  reflexivity.
Qed.

End Runs.

(** ** The grid composer *)

Lemma gridSites_length sites pinned :
  length (gridSites sites pinned).1 = length pinned.
Proof.
  revert sites. induction pinned as [|p rest IH]; intros sites; simpl; auto.
Qed.

Lemma dropEmpty_length {A} (slots : list (option A)) :
  (length (dropEmpty slots) <= length slots)%nat.
Proof.
  induction slots as [|[a|] rest IH]; simpl; lia.
Qed.

Lemma sitesBefore_0 sites pinned : sitesBefore sites pinned 0 = sites.
Proof. reflexivity. Qed.

Lemma sitesBefore_cons sites p rest i :
  sitesBefore sites (p :: rest) (S i) =
  sitesBefore (gridSlot sites p).2 rest i.
Proof. reflexivity. Qed.

Lemma gridSites_lookup sites pinned i :
  (gridSites sites pinned).1 !! i =
  (fun p => (gridSlot (sitesBefore sites pinned i) p).1) <$> pinned !! i.
Proof.
  revert sites i. induction pinned as [|p rest IH]; intros sites i.
  - reflexivity.
  - destruct i as [|i]; simpl; [reflexivity|].
    rewrite IH. reflexivity.
Qed.

Lemma sitesBefore_step sites pinned i p :
  pinned !! i = Some p ->
  sitesBefore sites pinned (S i) = (gridSlot (sitesBefore sites pinned i) p).2.
Proof.
  revert sites i. induction pinned as [|q rest IH]; intros sites i Hp.
  - discriminate.
  - destruct i as [|i]; simpl in Hp.
    + injection Hp as ->. reflexivity.
    + rewrite !sitesBefore_cons. by apply IH.
Qed.

Lemma gridSlot_shrinks sites p site :
  site ∈ (gridSlot sites p).2 -> site ∈ sites.
Proof.
  destruct p as [p|]; simpl.
  - rewrite !list_elem_of_In, filter_In. tauto.
  - destruct sites as [|s rest]; simpl; [tauto|]. intros H. by right.
Qed.

Lemma gridSites_shrinks sites pinned site :
  site ∈ (gridSites sites pinned).2 -> site ∈ sites.
Proof.
  revert sites. induction pinned as [|p rest IH]; intros sites; simpl; auto.
  intros H. eapply gridSlot_shrinks, IH, H.
Qed.

Lemma sitesBefore_shrinks_add sites pinned i d site :
  site ∈ sitesBefore sites pinned (i + d) -> site ∈ sitesBefore sites pinned i.
Proof.
  unfold sitesBefore. revert sites i.
  induction pinned as [|p rest IH]; intros sites i.
  - by rewrite !take_nil.
  - destruct i as [|i]; simpl.
    + destruct d as [|d]; simpl; [done|].
      intros H. eapply gridSlot_shrinks, gridSites_shrinks, H.
    + apply IH.
Qed.

Lemma sitesBefore_shrinks sites pinned i j site :
  (i <= j)%nat ->
  site ∈ sitesBefore sites pinned j -> site ∈ sitesBefore sites pinned i.
Proof.
  intros Hij. replace j with (i + (j - i))%nat by lia.
  apply sitesBefore_shrinks_add.
Qed.

(** C1. Pin priority in the grid composer.  The working list of candidates
    is [sites] when slot 0 is reached.  At every index [i] with a pin, the
    composed grid (before the empty slots are dropped) holds that pin at
    slot [i], the candidates with the pin's key are removed from the working
    list at that step, and none is in it when any later slot is filled; at
    an index without a pin the slot receives the first candidate of the
    working list, which loses it, or the slot is empty when none remains.
    Past the last pinned entry the grid has no slot. *)
Theorem pin_priority (sites : list Site) (pinned : list (option Site))
    (i : nat) :
  let grid := (gridSites sites pinned).1 in
  sitesBefore sites pinned 0 = sites ∧
  match pinned !! i with
  | Some (Some p) =>
      grid !! i = Some (Some p) ∧
      sitesBefore sites pinned (S i) =
        List.filter (fun site => negb (bool_decide (key site = key p)))
                    (sitesBefore sites pinned i) ∧
      ∀ j site, (i < j)%nat → site ∈ sitesBefore sites pinned j →
                key site ≠ key p
  | Some None =>
      grid !! i = Some (head (sitesBefore sites pinned i)) ∧
      sitesBefore sites pinned (S i) = tail (sitesBefore sites pinned i) ∧
      (sitesBefore sites pinned i = [] → grid !! i = Some None)
  | None => grid !! i = None
  end.
Proof.
  intros grid. subst grid. split; [reflexivity|].
  rewrite gridSites_lookup.
  destruct (pinned !! i) as [[p|]|] eqn:Hp; simpl.
  - split; [reflexivity|].
    pose proof (sitesBefore_step sites pinned i _ Hp) as Hstep.
    simpl in Hstep. split; [exact Hstep|].
    intros j site Hij Hin.
    apply (sitesBefore_shrinks sites pinned (S i) j) in Hin; [|lia].
    rewrite Hstep, list_elem_of_In, filter_In in Hin.
    destruct Hin as [_ Hne]. apply negb_true_iff in Hne.
    by apply bool_decide_eq_false in Hne.
  - split; [reflexivity|]. split.
    + exact (sitesBefore_step sites pinned i _ Hp).
    + intros ->. reflexivity.
  - reflexivity.
Qed.

Section Grid.

Variable isSourceAboutUrl : option string -> bool.
Variable urlParse : string -> Completion Url.
Variable staticData : list Site.

(** C9. The emitted grid is never longer than the sequence of pinned
    entries; with no pinned entry it is empty, whatever the history and the
    catalog hold. *)
Theorem grid_length_le_pinned (state : AppState) (w : World) :
  ∃ grid w',
    getTopSiteData isSourceAboutUrl urlParse staticData state w =
      (Normal grid, w') ∧
    (length grid <= length (getPinnedTopSites state))%nat ∧
    (getPinnedTopSites state = [] → grid = []).
Proof.
  rewrite getTopSiteData_run. eexists _, _. split; [reflexivity|]. split.
  - etransitivity; [apply dropEmpty_length|]. by rewrite gridSites_length.
  - intros ->. reflexivity.
Qed.

End Grid.

(** ** The sort *)

Section SortFacts.

Context {A : Type} (comparator : A -> A -> Z).

Lemma insertSorted_perm x l : insertSorted comparator x l ≡ₚ x :: l.
Proof.
  induction l as [|y rest IH]; simpl; [done|].
  destruct (comparator x y <=? 0); [done|].
  rewrite IH. apply Permutation_swap.
Qed.

Lemma sortBy_perm l : sortBy comparator l ≡ₚ l.
Proof.
  induction l as [|x rest IH]; simpl; [done|].
  by rewrite insertSorted_perm, IH.
Qed.

Lemma sortBy_elem x l : x ∈ sortBy comparator l ↔ x ∈ l.
Proof. by rewrite sortBy_perm. Qed.

End SortFacts.

(** ** The candidate filter *)

Lemma isPinned_false state siteKey :
  isPinned state siteKey = false ↔
  ∀ p, Some p ∈ getPinnedTopSites state → key p ≠ siteKey.
Proof.
  unfold isPinned. rewrite <- not_true_iff_false, existsb_exists. split.
  - intros Hno p Hin Heq. apply Hno. exists (Some p). split.
    + by apply list_elem_of_In.
    + by apply bool_decide_eq_true.
  - intros Hall [[p|] [Hin Hp]]; [|discriminate].
    apply bool_decide_eq_true in Hp. apply list_elem_of_In in Hin.
    by apply (Hall p).
Qed.

Lemma isIgnored_false state k :
  isIgnored state (Some k) = false ↔ k ∉ getIgnoredTopSites state.
Proof.
  unfold isIgnored. rewrite bool_decide_eq_false, list_elem_of_fmap.
  split.
  - intros Hno Hin. apply Hno. by exists k.
  - intros Hno (k' & [= ->] & Hin). done.
Qed.

Section Filter.

Variable isSourceAboutUrl : option string -> bool.

Lemma isCandidate_true state w k site :
  isCandidate isSourceAboutUrl state w (k, site) = true ↔
  isSourceAboutUrl (location site) = false ∧
  (∀ p, Some p ∈ getPinnedTopSites state → key p ≠ Some k) ∧
  (k ∉ getIgnoredTopSites state) ∧
  (∀ m, minCountOfTopSites w = Some m → m <= orZero (count site)) ∧
  (∀ m, minAccessOfTopSites w = Some m →
        m <= orZero (lastAccessedTime site)).
Proof.
  unfold isCandidate; simpl.
  rewrite !andb_true_iff, !negb_true_iff, isPinned_false, isIgnored_false.
  assert (Hle : ∀ (o : option Z) v,
             match o with Some m => m <=? v | None => true end = true ↔
             ∀ m, o = Some m → m <= v).
  { intros [m|] v; split.
    - intros H m' [= <-]. lia.
    - intros H. apply Z.leb_le. by apply H.
    - intros _ m' [=].
    - done. }
  rewrite !Hle. tauto.
Qed.

(** C4. Membership in the candidate filter: an entry of the history map is
    retained exactly when its location is not a source-about URL, no pinned
    entry has its key, its key is not ignored, and its count and last access
    time (0 when absent) reach the watermarks that are set; running the
    filter leaves the module state as it was. *)
Theorem candidate_filter_membership (state : AppState) (w : World) :
  ∃ candidates,
    candidateSites isSourceAboutUrl state w = (Normal candidates, w) ∧
    ∀ k site,
      (k, site) ∈ candidates ↔
      (k, site) ∈ getSites state ∧
      isSourceAboutUrl (location site) = false ∧
      (∀ p, Some p ∈ getPinnedTopSites state → key p ≠ Some k) ∧
      (k ∉ getIgnoredTopSites state) ∧
      (∀ m, minCountOfTopSites w = Some m → m <= orZero (count site)) ∧
      (∀ m, minAccessOfTopSites w = Some m →
            m <= orZero (lastAccessedTime site)).
Proof.
  eexists. split; [reflexivity|].
  intros k site.
  rewrite list_elem_of_In, filter_In, <- list_elem_of_In, isCandidate_true.
  tauto.
Qed.

(** Every site of the pool is a retained candidate, with its count and
    access time as in the history and the key of its entry. *)
Lemma pool_candidate state w site :
  site ∈ pool isSourceAboutUrl state w →
  ∃ k s, (k, s) ∈ getSites state ∧
         isCandidate isSourceAboutUrl state w (k, s) = true ∧
         count site = count s ∧
         lastAccessedTime site = lastAccessedTime s ∧
         key site = Some k.
Proof.
  unfold pool, rankSites. rewrite list_elem_of_fmap.
  intros ([k s] & -> & Hin).
  apply elem_of_take in Hin as (i & Hin & _).
  apply list_elem_of_lookup_2, sortBy_elem in Hin.
  rewrite list_elem_of_In, filter_In, <- list_elem_of_In in Hin.
  exists k, s. simpl. tauto.
Qed.

End Filter.

(** ** The watermarks *)

Lemma lowerTo_minInf m v : lowerTo m v = minInf (Some v) m.
Proof.
  destruct m as [m|]; simpl; [|reflexivity].
  destruct (Z.ltb_spec v m); f_equal; lia.
Qed.

Lemma minInf_swap a b c : minInf a (minInf b c) = minInf b (minInf a c).
Proof.
  destruct a, b, c; simpl; f_equal; lia.
Qed.

Lemma foldl_lowerTo m vs : foldl lowerTo m vs = minimumInf m vs.
Proof.
  unfold minimumInf. revert m.
  induction vs as [|v rest IH]; intros m; simpl; [reflexivity|].
  rewrite IH, lowerTo_minInf. clear IH.
  induction rest as [|u rest IH]; [reflexivity|].
  change (minInf (Some u)
            (foldr (fun v acc => minInf (Some v) acc) (minInf (Some v) m) rest)
          = minInf (Some v)
              (minInf (Some u)
                 (foldr (fun v acc => minInf (Some v) acc) m rest))).
  by rewrite IH, minInf_swap.
Qed.

Lemma foldl_lowerTo_bounded m vs :
  (∀ v, v ∈ vs → m <= v) → foldl lowerTo (Some m) vs = Some m.
Proof.
  induction vs as [|v rest IH]; intros Hall; simpl; [reflexivity|].
  assert (m <= v) by (apply Hall; left).
  destruct (Z.ltb_spec v m); [lia|].
  apply IH. intros u Hu. apply Hall. by right.
Qed.

Section Watermarks.

Variable isSourceAboutUrl : option string -> bool.
Variable urlParse : string -> Completion Url.
Variable staticData : list Site.

Lemma worldAfter_minCount_set state w m :
  minCountOfTopSites w = Some m →
  minCountOfTopSites (worldAfter isSourceAboutUrl urlParse state w) = Some m.
Proof.
  intros Hm. simpl. rewrite Hm. apply foldl_lowerTo_bounded.
  intros v Hv. apply list_elem_of_fmap in Hv as (site & -> & Hin).
  apply pool_candidate in Hin as (k & s & _ & Hc & Hcount & _ & _).
  apply isCandidate_true in Hc as (_ & _ & _ & Hle & _).
  simpl. rewrite Hcount. by apply Hle.
Qed.

Lemma worldAfter_minAccess_set state w m :
  minAccessOfTopSites w = Some m →
  minAccessOfTopSites (worldAfter isSourceAboutUrl urlParse state w) = Some m.
Proof.
  intros Hm. simpl. rewrite Hm. apply foldl_lowerTo_bounded.
  intros v Hv. apply list_elem_of_fmap in Hv as (site & -> & Hin).
  apply pool_candidate in Hin as (k & s & _ & Hc & _ & Htime & _).
  apply isCandidate_true in Hc as (_ & _ & _ & _ & Hle).
  simpl. rewrite Htime. by apply Hle.
Qed.

(** C2. Monotone watermarks: over two consecutive runs of [getTopSiteData]
    with no cache clear in between, a watermark that has a value before the
    second run (unset, it is no lower bound at all) has, after it, a value
    at least as large; and after each run
    each watermark is the minimum of its previous value (+infinity when
    unset) and the counts, respectively access times (0 when absent), of
    the retained pool of that run. *)
Theorem watermark_monotone (state1 state2 : AppState) (w0 : World) :
  ∃ grid1 w1 grid2 w2,
    getTopSiteData isSourceAboutUrl urlParse staticData state1 w0 =
      (Normal grid1, w1) ∧
    getTopSiteData isSourceAboutUrl urlParse staticData state2 w1 =
      (Normal grid2, w2) ∧
    (∀ m, minCountOfTopSites w1 = Some m →
          ∃ m', minCountOfTopSites w2 = Some m' ∧ m <= m') ∧
    (∀ m, minAccessOfTopSites w1 = Some m →
          ∃ m', minAccessOfTopSites w2 = Some m' ∧ m <= m') ∧
    minCountOfTopSites w1 =
      minimumInf (minCountOfTopSites w0)
        ((orZero ∘ count) <$> pool isSourceAboutUrl state1 w0) ∧
    minAccessOfTopSites w1 =
      minimumInf (minAccessOfTopSites w0)
        ((orZero ∘ lastAccessedTime) <$> pool isSourceAboutUrl state1 w0) ∧
    minCountOfTopSites w2 =
      minimumInf (minCountOfTopSites w1)
        ((orZero ∘ count) <$> pool isSourceAboutUrl state2 w1) ∧
    minAccessOfTopSites w2 =
      minimumInf (minAccessOfTopSites w1)
        ((orZero ∘ lastAccessedTime) <$> pool isSourceAboutUrl state2 w1).
Proof.
  rewrite getTopSiteData_run. eexists _, _.
  rewrite getTopSiteData_run. eexists _, _.
  split; [reflexivity|]. split; [reflexivity|].
  set (w1 := worldAfter isSourceAboutUrl urlParse state1 w0).
  repeat split.
  - intros m Hm. exists m. split; [|lia].
    by apply worldAfter_minCount_set.
  - intros m Hm. exists m. split; [|lia].
    by apply worldAfter_minAccess_set.
  - apply foldl_lowerTo.
  - apply foldl_lowerTo.
  - apply foldl_lowerTo.
  - apply foldl_lowerTo.
Qed.

End Watermarks.

(** ** The domain deduplicator *)

Section Domains.

Variable isSourceAboutUrl : option string -> bool.
Variable urlParse : string -> Completion Url.
Variable staticData : list Site.

Lemma parsedHostname_parsesTo site h :
  parsedHostname urlParse site = Some h ↔ parsesTo urlParse site h.
Proof.
  unfold parsedHostname, parsesTo. split.
  - destruct (location site) as [loc|]; [|discriminate].
    case_bool_decide; [discriminate|].
    destruct (urlParse loc) as [url|e] eqn:Hu; [|discriminate].
    intros [= <-]. by exists loc, url.
  - intros (loc & url & -> & Hne & -> & <-).
    by rewrite bool_decide_eq_false_2.
Qed.

Lemma firstOfHostname_parsed sites i :
  firstOfHostname urlParse sites i ↔
  ∃ site h,
    sites !! i = Some site ∧ parsedHostname urlParse site = Some h ∧
    ∀ j site', (j < i)%nat → sites !! j = Some site' →
               parsedHostname urlParse site' ≠ Some h.
Proof.
  unfold firstOfHostname. split.
  - intros (site & h & Hi & Hp & Hno). exists site, h.
    split; [done|]. split; [by apply parsedHostname_parsesTo|].
    intros j site' Hj Hjs Hjh. apply (Hno j site' Hj Hjs).
    by apply parsedHostname_parsesTo.
  - intros (site & h & Hi & Hp & Hno). exists site, h.
    split; [done|]. split; [by apply parsedHostname_parsesTo|].
    intros j site' Hj Hjs Hjh. apply (Hno j site' Hj Hjs).
    by apply parsedHostname_parsesTo.
Qed.

Lemma parsedHostname_location site h :
  parsedHostname urlParse site = Some h → noLocation site = false.
Proof.
  unfold parsedHostname, noLocation.
  destruct (location site) as [loc|]; [|discriminate].
  by case_bool_decide.
Qed.

Lemma keptDomains_elem seen sites site :
  site ∈ keptDomains urlParse seen sites →
  site ∈ sites ∧ noLocation site = false.
Proof.
  revert seen. induction sites as [|s rest IH]; intros seen; simpl.
  - by intros ?%elem_of_nil.
  - destruct (parsedHostname urlParse s) as [h|] eqn:Hh.
    + case_bool_decide.
      * intros [? ?]%IH. split; [by right|done].
      * intros [->|[? ?]%IH]%elem_of_cons.
        -- split; [by left|]. by eapply parsedHostname_location.
        -- split; [by right|done].
    + intros [? ?]%IH. split; [by right|done].
Qed.

Lemma keptDomains_sublist seen sites :
  sublist (keptDomains urlParse seen sites) sites.
Proof.
  revert seen. induction sites as [|s rest IH]; intros seen; simpl.
  - constructor.
  - destruct (parsedHostname urlParse s) as [h|].
    + case_bool_decide; [by apply sublist_cons|by apply sublist_skip].
    + by apply sublist_cons.
Qed.

(** The indices kept from the suffix [sites] of [all], when [seen] holds the
    hostnames of the prefix. *)
Lemma keptDomains_indices all sites : ∀ pre seen,
  all = pre ++ sites →
  (∀ h, h ∈ seen ↔
        ∃ j s, (j < length pre)%nat ∧ all !! j = Some s ∧
               parsedHostname urlParse s = Some h) →
  ∃ idx,
    StronglySorted lt idx ∧
    Forall2 (fun i site => all !! i = Some site) idx
            (keptDomains urlParse seen sites) ∧
    ∀ i, i ∈ idx ↔ (length pre <= i)%nat ∧ firstOfHostname urlParse all i.
Proof.
  induction sites as [|s rest IH]; intros pre seen Hall Hseen.
  - exists []. split; [constructor|]. split; [constructor|].
    intros i. split; [by intros ?%elem_of_nil|].
    intros [Hle (site & h & Hi & _)].
    apply lookup_lt_Some in Hi. rewrite Hall, app_nil_r in Hi. lia.
  - assert (Hn : all !! length pre = Some s).
    { rewrite Hall. by rewrite list_lookup_middle. }
    assert (Hall' : all = (pre ++ [s]) ++ rest) by by rewrite <- app_assoc.
    assert (Hlen : length (pre ++ [s]) = S (length pre)).
    { rewrite length_app. simpl. lia. }
    simpl. destruct (parsedHostname urlParse s) as [h|] eqn:Hh.
    + case_bool_decide as Hin.
      * (* a later site of a hostname already seen *)
        destruct (IH (pre ++ [s]) seen Hall') as (idx & Hs & Hf & Hi).
        { intros h'. rewrite Hseen, Hlen. split.
          - intros (j & s' & ? & ? & ?). exists j, s'. split; [lia|done].
          - intros (j & s' & Hj & Hjs & Hjh).
            destruct (decide (j = length pre)) as [->|].
            + rewrite Hn in Hjs. injection Hjs as <-.
              rewrite Hh in Hjh. injection Hjh as <-.
              by apply Hseen.
            + exists j, s'. split; [lia|done]. }
        exists idx. split; [done|]. split; [done|].
        intros i. rewrite Hi, Hlen. split; [intros [? ?]; split; [lia|done]|].
        intros [Hle Hfirst]. split; [|done].
        destruct (decide (i = length pre)) as [->|]; [|lia].
        apply firstOfHostname_parsed in Hfirst
          as (site & h' & Hsite & Hh' & Hnone).
        rewrite Hn in Hsite. injection Hsite as <-.
        rewrite Hh in Hh'. injection Hh' as <-.
        apply Hseen in Hin as (j & s' & Hj & Hjs & Hjh).
        by destruct (Hnone j s' Hj Hjs).
      * (* the first site of its hostname *)
        destruct (IH (pre ++ [s]) ({[h]} ∪ seen) Hall')
          as (idx & Hs & Hf & Hi).
        { intros h'. rewrite elem_of_union, elem_of_singleton, Hseen, Hlen.
          split.
          - intros [->|(j & s' & ? & ? & ?)].
            + exists (length pre), s. split; [lia|done].
            + exists j, s'. split; [lia|done].
          - intros (j & s' & Hj & Hjs & Hjh).
            destruct (decide (j = length pre)) as [->|].
            + rewrite Hn in Hjs. injection Hjs as <-.
              rewrite Hh in Hjh. injection Hjh as <-. by left.
            + right. exists j, s'. split; [lia|done]. }
        assert (Hfirst : firstOfHostname urlParse all (length pre)).
        { apply firstOfHostname_parsed. exists s, h. split; [done|]. split; [done|].
          intros j s' Hj Hjs Hjh. apply Hin, Hseen. by exists j, s'. }
        exists (length pre :: idx). split; [|split].
        -- constructor; [done|]. apply Forall_forall. intros i Hin'.
           apply Hi in Hin' as [Hle _]. lia.
        -- by constructor.
        -- intros i. rewrite elem_of_cons, Hi, Hlen. split.
           ++ intros [->|[? ?]]; [split; [lia|done]|split; [lia|done]].
           ++ intros [Hle Hf'].
              destruct (decide (i = length pre)); [by left|right].
              split; [lia|done].
    + (* a site without a hostname *)
      destruct (IH (pre ++ [s]) seen Hall') as (idx & Hs & Hf & Hi).
      { intros h'. rewrite Hseen, Hlen. split.
        - intros (j & s' & ? & ? & ?). exists j, s'. split; [lia|done].
        - intros (j & s' & Hj & Hjs & Hjh).
          destruct (decide (j = length pre)) as [->|].
          + rewrite Hn in Hjs. injection Hjs as <-. congruence.
          + exists j, s'. split; [lia|done]. }
      exists idx. split; [done|]. split; [done|].
      intros i. rewrite Hi, Hlen. split; [intros [? ?]; split; [lia|done]|].
      intros [Hle Hfirst]. split; [|done].
      destruct (decide (i = length pre)) as [->|]; [|lia].
      apply firstOfHostname_parsed in Hfirst
        as (site & h' & Hsite & Hh' & _).
      rewrite Hn in Hsite. injection Hsite as <-. congruence.
Qed.

(** C7. Domain deduplication with recoverable parse errors: on any list,
    [removeDuplicateDomains] ends normally; it keeps, in the order of the
    input, exactly the sites that are the first of the input whose location
    parses to their hostname, so every later site of a hostname and every
    site whose location fails to parse are dropped; the errors of the
    failed parses are written to the console, in order, instead of being
    thrown; and a run of [getTopSiteData] ends normally whatever the parser
    does. *)
Theorem removeDuplicateDomains_keeps_first (sites : list Site) (w : World) :
  (∃ kept idx,
     removeDuplicateDomains urlParse sites w =
       (Normal kept, logged w (omap (parseError urlParse) sites)) ∧
     StronglySorted lt idx ∧
     Forall2 (fun i site => sites !! i = Some site) idx kept ∧
     ∀ i, i ∈ idx ↔ firstOfHostname urlParse sites i) ∧
  ∀ state,
    ∃ grid w',
      getTopSiteData isSourceAboutUrl urlParse staticData state w =
        (Normal grid, w').
Proof.
  split.
  - unfold removeDuplicateDomains. rewrite filterDomains_run.
    destruct (keptDomains_indices sites sites [] ∅ eq_refl)
      as (idx & Hs & Hf & Hi).
    { intros h. split; [by intros ?%elem_of_empty|].
      intros (j & s & Hj & _). simpl in Hj. lia. }
    exists (keptDomains urlParse ∅ sites), idx.
    split; [reflexivity|]. split; [done|]. split; [done|].
    intros i. rewrite Hi. simpl. split; [tauto|].
    intros ?. split; [lia|done].
  - intros state. rewrite getTopSiteData_run. by eexists _, _.
Qed.

End Domains.

(** ** What the grid is made of *)

Lemma dropEmpty_elem {A} (slots : list (option A)) a :
  a ∈ dropEmpty slots ↔ Some a ∈ slots.
Proof.
  induction slots as [|[b|] rest IH]; simpl.
  - split; by intros ?%elem_of_nil.
  - rewrite !elem_of_cons, IH. split; intros [?|?]; auto; left; congruence.
  - rewrite elem_of_cons, IH. split; [by right|]. by intros [?|?].
Qed.

Lemma gridSites_elem sites pinned site :
  Some site ∈ (gridSites sites pinned).1 →
  Some site ∈ pinned ∨ site ∈ sites.
Proof.
  revert sites. induction pinned as [|p rest IH]; intros sites; simpl.
  - by intros ?%elem_of_nil.
  - intros [Heq|Hin]%elem_of_cons.
    + destruct p as [p|]; simpl in Heq.
      * left. rewrite Heq. left.
      * right. destruct sites as [|s tl]; [discriminate|].
        simpl in Heq. injection Heq as ->. by left.
    + apply IH in Hin as [Hin|Hin]; [left; by right|].
      right. by eapply gridSlot_shrinks.
Qed.

Lemma filter_sublist {A} (f : A -> bool) (l : list A) :
  sublist (List.filter f l) l.
Proof.
  induction l as [|x rest IH]; simpl; [constructor|].
  destruct (f x); [by apply sublist_skip|by apply sublist_cons].
Qed.

Section GridContent.

Variable isSourceAboutUrl : option string -> bool.
Variable urlParse : string -> Completion Url.
Variable staticData : list Site.

(** C10. A record whose location is absent or empty is dropped by the
    deduplicator without the parser being involved: the callback answers
    false, whatever the parser would do, and leaves the seen hostnames and
    the console as they were; no such record is in the list
    [removeDuplicateDomains] returns.  So every site of the emitted grid is
    a pinned entry, a catalog entry, or a site of the ranked pool that has a
    location. *)
Theorem no_location_never_ranked :
  (∀ seen site w,
     noLocation site = true →
     keepDomain urlParse seen site w = (Normal (false, seen), w)) ∧
  (∀ sites w,
     ∃ kept w',
       removeDuplicateDomains urlParse sites w = (Normal kept, w') ∧
       ∀ site, site ∈ kept → noLocation site = false) ∧
  ∀ state w,
    ∃ grid w',
      getTopSiteData isSourceAboutUrl urlParse staticData state w =
        (Normal grid, w') ∧
      ∀ site, site ∈ grid →
        Some site ∈ getPinnedTopSites state ∨
        site ∈ preDefined staticData state ∨
        (site ∈ pool isSourceAboutUrl state w ∧ noLocation site = false).
Proof using Type.
  split; [|split].
  - intros seen site w. unfold noLocation, keepDomain.
    destruct (location site) as [loc|]; [|reflexivity].
    intros ->. reflexivity.
  - intros sites w. unfold removeDuplicateDomains.
    rewrite filterDomains_run. eexists _, _. split; [reflexivity|].
    intros site Hin. by eapply keptDomains_elem.
  - intros state w. rewrite getTopSiteData_run. eexists _, _.
    split; [reflexivity|].
    intros site [Hin|Hin]%dropEmpty_elem%gridSites_elem; [by left|right].
    unfold fillSites in Hin.
    destruct (length _ <? 18)%nat.
    + apply elem_of_app in Hin as [Hin|Hin]; [|by left].
      right. by eapply keptDomains_elem.
    + right. by eapply keptDomains_elem.
Qed.

End GridContent.

(** ** Keys of the grid *)

Lemma gridSites_keys_NoDup pinned : ∀ sites,
  NoDup (key <$> dropEmpty pinned) →
  NoDup (key <$> sites) →
  (∀ site p, site ∈ sites → Some p ∈ pinned → key site ≠ key p) →
  NoDup (key <$> dropEmpty (gridSites sites pinned).1).
Proof.
  induction pinned as [|p rest IH]; intros sites Hpins Hsites Hdisj; simpl.
  - constructor.
  - destruct p as [p|]; simpl in *.
    + apply NoDup_cons in Hpins as [Hp Hpins].
      assert (Hsub : sublist
                (List.filter
                   (fun site => negb (bool_decide (key site = key p))) sites)
                sites) by apply filter_sublist.
      apply NoDup_cons. split.
      * intros (site & Hk & Hin)%list_elem_of_fmap.
        apply dropEmpty_elem, gridSites_elem in Hin as [Hin|Hin].
        -- apply Hp, list_elem_of_fmap. exists site. split; [done|].
           by apply dropEmpty_elem.
        -- eapply (Hdisj site p); [|left|done].
           by eapply elem_of_sublist.
      * apply IH; [done| |].
        -- eapply sublist_NoDup; [exact Hsites|]. by apply fmap_sublist.
        -- intros site q Hin Hq. apply Hdisj; [|by right].
           by eapply elem_of_sublist.
    + destruct sites as [|c cs]; simpl.
      * apply IH; [done|constructor|]. by intros ? ? ?%elem_of_nil.
      * simpl in Hsites. apply NoDup_cons in Hsites as [Hc Hcs].
        apply NoDup_cons. split.
        -- intros (site & Hk & Hin)%list_elem_of_fmap.
           apply dropEmpty_elem, gridSites_elem in Hin as [Hin|Hin].
           ++ eapply (Hdisj c site); [left|by right|done].
           ++ apply Hc, list_elem_of_fmap. by exists site.
        -- apply IH; [done|done|].
           intros site q Hin Hq. apply Hdisj; by right.
Qed.

Section Keys.

Variable isSourceAboutUrl : option string -> bool.
Variable urlParse : string -> Completion Url.
Variable staticData : list Site.

Lemma pool_keys state w :
  key <$> pool isSourceAboutUrl state w =
  Some <$> (take aboutNewTabMaxEntries
              (sortBy (fun l r => sortCountDescending l.2 r.2)
                 (List.filter (isCandidate isSourceAboutUrl state w)
                    (getSites state)))).*1.
Proof.
  unfold pool, rankSites. rewrite <- !list_fmap_compose.
  apply list_fmap_ext. by intros i [k s] _.
Qed.

Lemma pool_keys_NoDup state w :
  NoDup (getSites state).*1 → NoDup (key <$> pool isSourceAboutUrl state w).
Proof.
  intros Hnd. rewrite pool_keys.
  apply (NoDup_fmap_2 Some).
  eapply sublist_NoDup; [|apply fmap_sublist, sublist_take].
  rewrite sortBy_perm.
  eapply sublist_NoDup; [exact Hnd|apply fmap_sublist, filter_sublist].
Qed.

Lemma preDefined_keys state :
  key <$> preDefined staticData state =
  key <$> List.filter
            (fun site => negb (isPinned state (key site)) &&
                         negb (isIgnored state (key site)))
            staticData.
Proof.
  unfold preDefined. rewrite <- list_fmap_compose.
  apply list_fmap_ext. by intros i site _.
Qed.

Lemma fillSites_not_pinned state w site :
  site ∈ fillSites isSourceAboutUrl urlParse staticData state w →
  isPinned state (key site) = false.
Proof.
  assert (Hpool : site ∈ pool isSourceAboutUrl state w →
                  isPinned state (key site) = false).
  { intros (k & s & _ & Hc & _ & _ & ->)%pool_candidate.
    apply isCandidate_true in Hc as (_ & Hp & _).
    by apply isPinned_false. }
  assert (Hpre : site ∈ preDefined staticData state →
                 isPinned state (key site) = false).
  { unfold preDefined. intros (s & -> & Hin)%list_elem_of_fmap.
    apply list_elem_of_In, filter_In in Hin as [_ Hf].
    apply andb_true_iff in Hf as [Hf _]. by apply negb_true_iff in Hf. }
  unfold fillSites. destruct (length _ <? 18)%nat.
  - intros [Hin|Hin]%elem_of_app; [|auto].
    apply Hpool. by eapply keptDomains_elem.
  - intros Hin. apply Hpool. by eapply keptDomains_elem.
Qed.

Lemma fillSites_keys_NoDup state w :
  NoDup (getSites state).*1 →
  NoDup (key <$> staticData) →
  (∀ k site, (k, site) ∈ getSites state → Some k ∉ key <$> staticData) →
  NoDup (key <$> fillSites isSourceAboutUrl urlParse staticData state w).
Proof.
  intros Hhist Hstatic Hdisj.
  assert (Hkept : NoDup (key <$> keptDomains urlParse ∅
                                   (pool isSourceAboutUrl state w))).
  { eapply sublist_NoDup; [by apply pool_keys_NoDup|].
    apply fmap_sublist, keptDomains_sublist. }
  unfold fillSites. destruct (length _ <? 18)%nat; [|done].
  rewrite fmap_app. apply NoDup_app. split; [done|]. split.
  - intros k (site & -> & Hin)%list_elem_of_fmap Hk.
    apply keptDomains_elem in Hin as [Hin _].
    apply pool_candidate in Hin as (k' & s & Hs & _ & _ & _ & Hkey).
    rewrite Hkey in Hk. apply (Hdisj k' s Hs).
    rewrite preDefined_keys in Hk.
    eapply elem_of_sublist; [exact Hk|].
    apply fmap_sublist, filter_sublist.
  - rewrite preDefined_keys.
    eapply sublist_NoDup; [exact Hstatic|apply fmap_sublist, filter_sublist].
Qed.

(** C3, as the code has it. When the pinned entries have pairwise distinct
    keys, and the catalog's records have pairwise distinct keys none of
    which is a key of the history map, no two entries of the emitted grid
    have the same key.  (The keys of a history map are distinct.) *)
Theorem no_duplicate_keys (state : AppState) (w : World) :
  NoDup (getSites state).*1 →
  NoDup (key <$> dropEmpty (getPinnedTopSites state)) →
  NoDup (key <$> staticData) →
  (∀ k site, (k, site) ∈ getSites state → Some k ∉ key <$> staticData) →
  ∃ grid w',
    getTopSiteData isSourceAboutUrl urlParse staticData state w =
      (Normal grid, w') ∧
    NoDup (key <$> grid).
Proof.
  intros Hhist Hpins Hstatic Hdisj.
  rewrite getTopSiteData_run. eexists _, _. split; [reflexivity|].
  apply gridSites_keys_NoDup; [done| |].
  - by apply fillSites_keys_NoDup.
  - intros site p Hin Hp.
    apply fillSites_not_pinned in Hin.
    rewrite isPinned_false in Hin. intros Heq. by apply (Hin p Hp).
Qed.

End Keys.

(** ** The ranker's order *)

Section SortOrder.

Context {A : Type} (comparator : A -> A -> Z).
Context (P : A -> Prop) (le : A -> A -> Prop).
Hypothesis le_of_comparator :
  ∀ x y, P x → P y → comparator x y <= 0 → le x y.
Hypothesis le_of_comparator_gt :
  ∀ x y, P x → P y → 0 < comparator x y → le y x.
Hypothesis le_trans : ∀ x y z, P x → P y → P z → le x y → le y z → le x z.

Lemma insertSorted_sorted x l :
  P x → Forall P l → StronglySorted le l →
  StronglySorted le (insertSorted comparator x l).
Proof using le_of_comparator le_of_comparator_gt le_trans.
  intros Hx HP Hs. induction Hs as [|y rest Hs IH Hy]; simpl.
  - repeat constructor.
  - apply Forall_cons in HP as [Py HP].
    destruct (Z.leb_spec (comparator x y) 0) as [Hle|Hgt].
    + constructor; [by constructor|].
      constructor; [by apply le_of_comparator|].
      rewrite Forall_forall in Hy, HP |- *. intros z Hz.
      apply (le_trans x y z); auto.
    + constructor; [by apply IH|].
      rewrite (insertSorted_perm comparator x rest).
      constructor; [by apply le_of_comparator_gt|done].
Qed.

Lemma sortBy_sorted l : Forall P l → StronglySorted le (sortBy comparator l).
Proof using le_of_comparator le_of_comparator_gt le_trans.
  induction l as [|x rest IH]; intros HP; simpl; [constructor|].
  apply Forall_cons in HP as [Px HP].
  apply insertSorted_sorted; [done| |by apply IH].
  by rewrite sortBy_perm.
Qed.

(** An entry never moves past an entry of its own class [Q]. *)
Lemma insertSorted_stable (Q : A -> bool) x l :
  (Q x = true → ∀ y, y ∈ l → 0 < comparator x y → Q y = false) →
  List.filter Q (insertSorted comparator x l) = List.filter Q (x :: l).
Proof using Type.
  induction l as [|y rest IH]; intros Hq; simpl; [reflexivity|].
  destruct (Z.leb_spec (comparator x y) 0) as [Hle|Hgt]; [reflexivity|].
  simpl. rewrite IH by (intros Hx z Hz; apply Hq; [done|by right]).
  simpl. destruct (Q x) eqn:Hx; [|reflexivity].
  rewrite (Hq eq_refl y); [reflexivity|left|done].
Qed.

Lemma sortBy_stable (Q : A -> bool) l :
  (∀ x y, x ∈ l → y ∈ l → Q x = true → 0 < comparator x y → Q y = false) →
  List.filter Q (sortBy comparator l) = List.filter Q l.
Proof using Type.
  induction l as [|x rest IH]; intros Hq; simpl; [reflexivity|].
  rewrite insertSorted_stable.
  - simpl. rewrite IH; [reflexivity|].
    intros y z Hy Hz. apply Hq; by right.
  - intros Hx y Hy. apply Hq; [left|right|done].
    by apply sortBy_elem in Hy.
Qed.

End SortOrder.

Lemma sortCountDescending_le (l r : Site) :
  is_Some (lastAccessedTime l) → is_Some (lastAccessedTime r) →
  sortCountDescending l r <= 0 ↔ ranksNoLater l r.
Proof.
  intros [tl Hl] [tr Hr]. unfold sortCountDescending, ranksNoLater.
  rewrite Hl, Hr. cbn [jsLt orZero default from_option id].
  split_ltb; lia.
Qed.

Lemma sortCountDescending_tie (l r : Site) :
  is_Some (lastAccessedTime l) → is_Some (lastAccessedTime r) →
  sortCountDescending l r = 0 ↔
  orZero (count l) = orZero (count r) ∧
  orZero (lastAccessedTime l) = orZero (lastAccessedTime r).
Proof.
  intros [tl Hl] [tr Hr]. unfold sortCountDescending.
  rewrite Hl, Hr. cbn [jsLt orZero default from_option id].
  split_ltb; lia.
Qed.

(** On candidates that all carry an access time the ranker's sort is the
    stable descending sort: a permutation of the candidates, in the
    ranker's order, the candidates of one count and access time in their
    order of the input. *)
Lemma sort_descending_stable (candidates : list (string * Site)) :
  Forall (fun e => is_Some (lastAccessedTime e.2)) candidates →
  let sorted := sortBy (fun l r => sortCountDescending l.2 r.2) candidates in
  sorted ≡ₚ candidates ∧
  StronglySorted (fun l r => ranksNoLater l.2 r.2) sorted ∧
  ∀ c t, List.filter (fun e => hasRank c t e.2) sorted =
         List.filter (fun e => hasRank c t e.2) candidates.
Proof.
  intros Htimes sorted. split; [apply sortBy_perm|]. split.
  - apply (sortBy_sorted _ (fun e => is_Some (lastAccessedTime e.2)));
      [| | |done].
    + intros x y Hx Hy. by apply sortCountDescending_le.
    + intros x y Hx Hy Hgt.
      destruct Hx as [tx Hx], Hy as [ty Hy].
      revert Hgt. unfold sortCountDescending, ranksNoLater.
      rewrite Hx, Hy. cbn [jsLt orZero default from_option id].
      split_ltb; lia.
    + intros x y z _ _ _. unfold ranksNoLater. lia.
  - intros c t. apply sortBy_stable.
    intros x y Hx Hy Hq Hgt.
    rewrite Forall_forall in Htimes.
    destruct (Htimes x Hx) as [tx Htx], (Htimes y Hy) as [ty Hty].
    apply not_true_iff_false. intros Hq'.
    unfold hasRank in Hq, Hq'.
    apply andb_true_iff in Hq as [Hc Ht], Hq' as [Hc' Ht'].
    revert Hgt. unfold sortCountDescending.
    rewrite Htx, Hty in *. cbn [jsLt orZero default from_option id] in *.
    split_ltb; lia.
Qed.

Section RankedKeys.

Variable isSourceAboutUrl : option string -> bool.


End RankedKeys.



(** C6, at a failing input. With equal counts, a site without an access
    time and a site with a positive one compare as equal, in both
    directions, so the sort leaves the one without access time first. *)
Theorem absent_access_time_compares_equal :
  sortCountDescending Examples.untimed Examples.timed = 0 ∧
  sortCountDescending Examples.timed Examples.untimed = 0 ∧
  sortBy (fun l r => sortCountDescending l.2 r.2)
         (getSites Examples.tieState) =
    getSites Examples.tieState.
Proof. repeat split; vm_compute; reflexivity. Qed.

(** C5, at a failing input. The ranked pool of a history whose first site
    has no access time and whose second has the same count and a positive
    access time keeps the order of the history, which is not the descending
    order by access time. *)
Theorem ranked_pool_not_descending :
  key <$> pool Examples.notAbout Examples.tieState Examples.unset =
    [Some "a"%string; Some "b"%string] ∧
  ¬ StronglySorted ranksNoLater
      (pool Examples.notAbout Examples.tieState Examples.unset).
Proof.
  split; [vm_compute; reflexivity|].
  intros Hs. inversion Hs as [|x rest _ Hall]; subst.
  apply Forall_cons in Hall as [Hab _].
  vm_compute in Hab. destruct Hab as [Hlt|[_ Hle]].
  - discriminate Hlt.
  - by apply Hle.
Qed.

(** C3 as stated fails: a site pinned at two slots is emitted twice. *)
Lemma duplicate_pins_duplicate_keys :
  ∃ grid w',
    getTopSiteData Examples.notAbout Examples.parse []
      Examples.pinnedTwice Examples.unset = (Normal grid, w') ∧
    ¬ NoDup (key <$> grid).
Proof.
  eexists _, _. split; [vm_compute; reflexivity|].
  intros [Hin _]%NoDup_cons. apply Hin. left.
Qed.

Lemma no_duplicate_keys_witness :
  ∃ grid w',
    getTopSiteData Examples.notAbout Examples.parse Examples.catalog
      Examples.mixed Examples.unset = (Normal grid, w') ∧
    NoDup (key <$> grid).
Proof.
  apply no_duplicate_keys.
  - apply (bool_decide_unpack _). vm_compute. exact I.
  - apply (bool_decide_unpack _). vm_compute. exact I.
  - apply (bool_decide_unpack _). vm_compute. exact I.
  - intros k site Hin.
    assert (Hall : Forall (fun e : string * Site =>
                             Some e.1 ∉ key <$> Examples.catalog)
                          (getSites Examples.mixed)).
    { apply (bool_decide_unpack _). vm_compute. exact I. }
    rewrite Forall_forall in Hall. exact (Hall (k, site) Hin).
Defined.

(** The grid of the example: the pin keeps its slot, the ranked sites fill
    the slots around it and the catalog pads the rest. *)
Example mixed_grid :
  ∃ w',
    getTopSiteData Examples.notAbout Examples.parse Examples.catalog
      Examples.mixed Examples.unset = (Normal [
        set_key "a" (set_bookmarked NotBookmarked Examples.untimed);
        Examples.visited "p" None None;
        set_key "b" (set_bookmarked NotBookmarked Examples.timed);
        set_bookmarked NotBookmarked (Examples.visited "c" None None)], w').
Proof. eexists. vm_compute. reflexivity. Qed.

(** A visited site that is also in the catalog is emitted twice: the
    catalog is appended without a look at the keys already there. *)
Example catalog_repeats_visited_site :
  ∃ grid w',
    getTopSiteData Examples.notAbout Examples.parse
      [Examples.visited "a" None None]
      Examples.mixed Examples.unset = (Normal grid, w') ∧
    key <$> grid =
      [Some "a"%string; Some "p"%string; Some "b"%string; Some "a"%string].
Proof. eexists _, _. split; vm_compute; reflexivity. Qed.

(** The deduplicator on a list with a repeated hostname, a location that
    does not parse and a site without location. *)
Example removeDuplicateDomains_run :
  removeDuplicateDomains Examples.parse
    [Examples.visited "x" None None; Examples.visited "bad" None None;
     mkSite (Some "n"%string) None (Some 9) None None;
     Examples.visited "x" (Some 3) None; Examples.visited "y" None None]
    Examples.unset =
  (Normal [Examples.visited "x" None None; Examples.visited "y" None None],
   {| minCountOfTopSites := None; minAccessOfTopSites := None;
      console := ["Invalid URL"%string] |}).
Proof. vm_compute. reflexivity. Qed.

(** The watermarks a first run leaves: the smallest count and the smallest
    access time of the pool, an absent access time counting as 0. *)
Example first_run_watermarks :
  (getTopSiteData Examples.notAbout Examples.parse Examples.catalog
     Examples.tieState Examples.unset).2 =
  {| minCountOfTopSites := Some 1; minAccessOfTopSites := Some 0;
     console := [] |}.
Proof. vm_compute. reflexivity. Qed.

(** * Further properties of the module *)

(** ** The composer: pins and free slots *)

Lemma gridSites_pins_sublist pinned : ∀ sites,
  dropEmpty pinned `sublist_of` dropEmpty (gridSites sites pinned).1.
Proof.
  induction pinned as [|[p|] rest IH]; intros sites; simpl.
  - constructor.
  - apply sublist_skip, IH.
  - destruct sites as [|c cs]; simpl; [apply IH|].
    apply sublist_cons, IH.
Qed.

Lemma gridSites_all_pinned (ps : list Site) : ∀ sites,
  dropEmpty (gridSites sites (Some <$> ps)).1 = ps.
Proof.
  induction ps as [|p rest IH]; intros sites; simpl; [reflexivity|].
  by rewrite IH.
Qed.

Lemma gridSites_no_pins n : ∀ sites : list Site,
  dropEmpty (gridSites sites (replicate n None)).1 = take n sites.
Proof.
  induction n as [|n IH]; intros sites; simpl; [reflexivity|].
  destruct sites as [|c cs]; simpl.
  - rewrite IH. by rewrite take_nil.
  - by rewrite IH.
Qed.

Lemma filter_all {A} (f : A -> bool) (l : list A) :
  (∀ x, x ∈ l → f x = true) → List.filter f l = l.
Proof.
  induction l as [|x rest IH]; intros Hall; simpl; [reflexivity|].
  rewrite (Hall x) by left. f_equal. apply IH. intros y Hy.
  apply Hall. by right.
Qed.

(** The number of free slots of a pinned sequence. *)
Lemma free_slots_le (pinned : list (option Site)) :
  (length (dropEmpty pinned) <= length pinned)%nat.
Proof. apply dropEmpty_length. Qed.

(** When no site of [sites] has the key of a pin, the composer hands the
    sites out untouched: the free slots take the first sites in order. *)
Lemma gridSites_disjoint pinned : ∀ sites,
  (∀ site p, site ∈ sites → Some p ∈ pinned → key site ≠ key p) →
  take (length pinned - length (dropEmpty pinned)) sites
    `sublist_of` dropEmpty (gridSites sites pinned).1 ∧
  length (dropEmpty (gridSites sites pinned).1) =
    (length (dropEmpty pinned) +
     (length pinned - length (dropEmpty pinned)) `min` length sites)%nat.
Proof.
  induction pinned as [|[p|] rest IH]; intros sites Hdisj.
  - simpl. split; [constructor|reflexivity].
  - assert (Hf : List.filter
                   (fun site => negb (bool_decide (key site = key p))) sites
                 = sites).
    { apply filter_all. intros site Hin. apply negb_true_iff.
      apply bool_decide_eq_false. apply (Hdisj site p Hin). left. }
    simpl. rewrite Hf.
    destruct (IH sites) as [Hsub Hlen].
    { intros site q Hin Hq. apply Hdisj; [done|by right]. }
    split; [by apply sublist_cons|]. rewrite Hlen. reflexivity.
  - pose proof (free_slots_le rest) as Hle.
    simpl. replace (S (length rest) - length (dropEmpty rest))%nat
      with (S (length rest - length (dropEmpty rest))) by lia.
    destruct sites as [|c cs]; simpl.
    + destruct (IH []) as [Hsub Hlen]; [by intros ? ? ?%elem_of_nil|].
      split; [apply sublist_nil_l|]. rewrite Hlen. simpl. lia.
    + destruct (IH cs) as [Hsub Hlen].
      { intros site q Hin Hq. apply Hdisj; by right. }
      split; [by apply sublist_skip|]. simpl. rewrite Hlen. lia.
Qed.

Section Composer.

Variable isSourceAboutUrl : option string -> bool.
Variable urlParse : string -> Completion Url.
Variable staticData : list Site.

(** X1. Every pinned entry is emitted: the non-null pinned entries, in
    their order, are a subsequence of the emitted grid. *)
Theorem pins_all_emitted (state : AppState) (w : World) :
  ∃ grid w',
    getTopSiteData isSourceAboutUrl urlParse staticData state w =
      (Normal grid, w') ∧
    dropEmpty (getPinnedTopSites state) `sublist_of` grid.
Proof.
  rewrite getTopSiteData_run. eexists _, _. split; [reflexivity|].
  apply gridSites_pins_sublist.
Qed.

(** X2. When every slot is pinned the emitted grid is the pinned sequence
    itself, whatever the history and the catalog hold. *)
Theorem all_pinned_grid (state : AppState) (w : World) (ps : list Site) :
  getPinnedTopSites state = Some <$> ps →
  ∃ w',
    getTopSiteData isSourceAboutUrl urlParse staticData state w =
      (Normal ps, w').
Proof.
  intros Hp. rewrite getTopSiteData_run, Hp, gridSites_all_pinned.
  by eexists.
Qed.

(** X3. When the [n] slots are all free the emitted grid is the first [n]
    sites of the list the pipeline built: the deduplicated ranked pool,
    followed by the catalog entries when it has fewer than 18 sites. *)
Theorem no_pins_grid (state : AppState) (w : World) (n : nat) :
  getPinnedTopSites state = replicate n None →
  ∃ w',
    getTopSiteData isSourceAboutUrl urlParse staticData state w =
      (Normal (take n (fillSites isSourceAboutUrl urlParse staticData
                         state w)), w').
Proof.
  intros Hp. rewrite getTopSiteData_run, Hp, gridSites_no_pins.
  by eexists.
Qed.

(** X4. In a run the duplicate filter of the composer removes nothing, the
    candidate filter and the catalog filter having excluded the pinned keys
    already: with [k] the smaller of the number of free slots and the length
    of the fill list, the first [k] sites of the fill list are, in order, a
    subsequence of the grid, and the grid has as many entries as there are
    pins, plus [k]. *)
Theorem free_slots_take_best (state : AppState) (w : World) :
  let pinned := getPinnedTopSites state in
  let fill := fillSites isSourceAboutUrl urlParse staticData state w in
  let free := (length pinned - length (dropEmpty pinned))%nat in
  ∃ grid w',
    getTopSiteData isSourceAboutUrl urlParse staticData state w =
      (Normal grid, w') ∧
    take free fill `sublist_of` grid ∧
    length grid = (length (dropEmpty pinned) + free `min` length fill)%nat.
Proof.
  intros pinned fill free. rewrite getTopSiteData_run.
  eexists _, _. split; [reflexivity|].
  apply gridSites_disjoint. intros site p Hin Hp.
  apply fillSites_not_pinned in Hin. rewrite isPinned_false in Hin.
  intros Heq. by apply (Hin p Hp).
Qed.

End Composer.

Lemma all_pinned_grid_witness :
  ∃ w',
    getTopSiteData Examples.notAbout Examples.parse Examples.catalog
      Examples.pinnedTwice Examples.unset =
      (Normal [Examples.timed; Examples.timed], w').
Proof.
  apply (all_pinned_grid Examples.notAbout Examples.parse Examples.catalog
           Examples.pinnedTwice Examples.unset
           [Examples.timed; Examples.timed]).
  reflexivity.
Defined.

Lemma no_pins_grid_witness :
  ∃ w',
    getTopSiteData Examples.notAbout Examples.parse Examples.catalog
      Examples.tieState Examples.unset =
      (Normal (take 2 (fillSites Examples.notAbout Examples.parse
                         Examples.catalog Examples.tieState Examples.unset)),
       w').
Proof.
  apply (no_pins_grid Examples.notAbout Examples.parse Examples.catalog
           Examples.tieState Examples.unset 2).
  reflexivity.
Defined.

(** ** Where the entries of the grid come from *)

Section Origin.

Variable isSourceAboutUrl : option string -> bool.

Lemma pool_origin state w site :
  site ∈ pool isSourceAboutUrl state w →
  ∃ k s, (k, s) ∈ getSites state ∧
         isCandidate isSourceAboutUrl state w (k, s) = true ∧
         site = set_key k (set_bookmarked (bookmarkedOf state s) s).
Proof.
  unfold pool, rankSites. rewrite list_elem_of_fmap.
  intros ([k s] & -> & Hin).
  apply elem_of_take in Hin as (i & Hin & _).
  apply list_elem_of_lookup_2, sortBy_elem in Hin.
  rewrite list_elem_of_In, filter_In, <- list_elem_of_In in Hin.
  destruct Hin as [Hin Hc]. by exists k, s.
Qed.

End Origin.

Lemma preDefined_origin staticData state site :
  site ∈ preDefined staticData state ↔
  ∃ c, c ∈ staticData ∧
       isPinned state (key c) = false ∧
       isIgnored state (key c) = false ∧
       site = set_bookmarked (bookmarkedOf state c) c.
Proof.
  unfold preDefined. rewrite list_elem_of_fmap. split.
  - intros (c & -> & Hin).
    apply list_elem_of_In, filter_In in Hin as [Hin Hf].
    apply andb_true_iff in Hf as [Hp Hi].
    apply negb_true_iff in Hp, Hi. apply list_elem_of_In in Hin.
    by exists c.
  - intros (c & Hin & Hp & Hi & ->). exists c. split; [done|].
    apply list_elem_of_In, filter_In. split; [by apply list_elem_of_In|].
    by rewrite Hp, Hi.
Qed.

Section GridOrigin.

Variable isSourceAboutUrl : option string -> bool.
Variable urlParse : string -> Completion Url.
Variable staticData : list Site.

Lemma fillSites_elem state w site :
  site ∈ fillSites isSourceAboutUrl urlParse staticData state w →
  site ∈ pool isSourceAboutUrl state w ∨ site ∈ preDefined staticData state.
Proof.
  unfold fillSites. destruct (length _ <? 18)%nat.
  - intros [Hin|Hin]%elem_of_app; [left|by right].
    by eapply keptDomains_elem.
  - intros Hin. left. by eapply keptDomains_elem.
Qed.

(** X5. Every entry of the emitted grid is a pinned entry as stored, or a
    record of the history that passes the candidate filter, carrying the key
    of its history entry and its bookmark flag, or a record of the catalog
    whose key is neither pinned nor ignored, carrying its bookmark flag;
    nothing else is emitted. *)
Theorem grid_entry_origin (state : AppState) (w : World) :
  ∃ grid w',
    getTopSiteData isSourceAboutUrl urlParse staticData state w =
      (Normal grid, w') ∧
    ∀ site, site ∈ grid →
      Some site ∈ getPinnedTopSites state ∨
      (∃ k s, (k, s) ∈ getSites state ∧
              isCandidate isSourceAboutUrl state w (k, s) = true ∧
              site = set_key k (set_bookmarked (bookmarkedOf state s) s)) ∨
      (∃ c, c ∈ staticData ∧
            isPinned state (key c) = false ∧
            isIgnored state (key c) = false ∧
            site = set_bookmarked (bookmarkedOf state c) c).
Proof.
  rewrite getTopSiteData_run. eexists _, _. split; [reflexivity|].
  intros site [Hin|Hin]%dropEmpty_elem%gridSites_elem; [by left|right].
  apply fillSites_elem in Hin as [Hin|Hin].
  - left. by apply pool_origin.
  - right. by apply preDefined_origin.
Qed.

(** X6. A pinned or ignored site is not emitted a second time: an entry of
    the emitted grid that has the key of a pinned entry, or an ignored key,
    is itself one of the pinned entries. *)
Theorem pinned_and_ignored_keys_only_in_pins (state : AppState) (w : World) :
  ∃ grid w',
    getTopSiteData isSourceAboutUrl urlParse staticData state w =
      (Normal grid, w') ∧
    ∀ site, site ∈ grid →
      ((∃ p, Some p ∈ getPinnedTopSites state ∧ key site = key p) ∨
       (∃ k, k ∈ getIgnoredTopSites state ∧ key site = Some k)) →
      Some site ∈ getPinnedTopSites state.
Proof.
  rewrite getTopSiteData_run. eexists _, _. split; [reflexivity|].
  intros site [Hin|Hin]%dropEmpty_elem%gridSites_elem Hkey; [done|].
  apply fillSites_elem in Hin
    as [(k & s & _ & Hc & ->)%pool_origin|Hc%preDefined_origin].
  - exfalso. apply isCandidate_true in Hc as (_ & Hnp & Hni & _).
    destruct Hkey as [(p & Hp & Hk)|(k' & Hk' & Hk)]; simpl in Hk.
    + by apply (Hnp p Hp).
    + injection Hk as ->. done.
  - exfalso. destruct Hc as (c & _ & Hnp & Hni & ->). simpl in Hkey.
    destruct Hkey as [(p & Hp & Hk)|(k' & Hk' & Hk)].
    + rewrite isPinned_false in Hnp. by apply (Hnp p Hp).
    + unfold isIgnored in Hni. apply bool_decide_eq_false in Hni.
      apply Hni. rewrite Hk. apply list_elem_of_fmap. by exists k'.
Qed.

(** X7. With an empty history a run changes neither watermark and writes
    nothing to the console; the grid is composed of the pinned entries and
    the catalog entries that are neither pinned nor ignored. *)
Theorem empty_history_run (state : AppState) (w : World) :
  getSites state = [] →
  getTopSiteData isSourceAboutUrl urlParse staticData state w =
    (Normal (dropEmpty (gridSites (preDefined staticData state)
                          (getPinnedTopSites state)).1), w).
Proof.
  intros Hempty. rewrite getTopSiteData_run.
  unfold worldAfter, fillSites, pool. rewrite Hempty. simpl.
  rewrite app_nil_r. by destruct w.
Qed.

End GridOrigin.

Lemma empty_history_run_witness :
  getTopSiteData Examples.notAbout Examples.parse Examples.catalog
    Examples.pinnedTwice Examples.unset =
  (Normal (dropEmpty (gridSites (preDefined Examples.catalog
                                   Examples.pinnedTwice)
                        (getPinnedTopSites Examples.pinnedTwice)).1),
   Examples.unset).
Proof.
  apply (empty_history_run Examples.notAbout Examples.parse Examples.catalog
           Examples.pinnedTwice Examples.unset).
  reflexivity.
Defined.

(** ** The deduplicated list *)

Section DomainFacts.

Variable urlParse : string -> Completion Url.

Lemma keptDomains_hostnames sites : ∀ seen,
  NoDup (parsedHostname urlParse <$> keptDomains urlParse seen sites) ∧
  ∀ site, site ∈ keptDomains urlParse seen sites →
          ∃ h, parsedHostname urlParse site = Some h ∧ h ∉ seen.
Proof.
  induction sites as [|s rest IH]; intros seen; simpl.
  - split; [constructor|]. by intros ? ?%elem_of_nil.
  - destruct (parsedHostname urlParse s) as [h|] eqn:Hh; [|apply IH].
    case_bool_decide as Hseen; [apply IH|].
    destruct (IH ({[h]} ∪ seen)) as [Hnd Hall]. split.
    + simpl. rewrite Hh. apply NoDup_cons. split; [|done].
      intros (site & Hsite & Hin)%list_elem_of_fmap.
      destruct (Hall site Hin) as (h' & Hh' & Hnot).
      rewrite Hh' in Hsite. injection Hsite as ->.
      apply Hnot, elem_of_union. left. by apply elem_of_singleton.
    + intros site [->|Hin]%elem_of_cons.
      * by exists h.
      * destruct (Hall site Hin) as (h' & Hh' & Hnot).
        exists h'. split; [done|].
        intros ?. apply Hnot, elem_of_union. by right.
Qed.

Lemma keptDomains_fixed sites : ∀ seen,
  NoDup (parsedHostname urlParse <$> sites) →
  (∀ site, site ∈ sites →
           ∃ h, parsedHostname urlParse site = Some h ∧ h ∉ seen) →
  keptDomains urlParse seen sites = sites.
Proof.
  induction sites as [|s rest IH]; intros seen Hnd Hall; simpl;
    [reflexivity|].
  destruct (Hall s) as (h & Hh & Hnot); [left|].
  rewrite Hh. rewrite bool_decide_eq_false_2 by done.
  simpl in Hnd. apply NoDup_cons in Hnd as [Hs Hnd].
  f_equal. apply IH; [done|].
  intros site Hin. destruct (Hall site) as (h' & Hh' & Hnot'); [by right|].
  exists h'. split; [done|].
  intros [->%elem_of_singleton|?]%elem_of_union; [|done].
  apply Hs. rewrite Hh. apply list_elem_of_fmap. exists site.
  split; [congruence|done].
Qed.

Lemma parseError_parsed site h :
  parsedHostname urlParse site = Some h → parseError urlParse site = None.
Proof.
  unfold parsedHostname, parseError.
  destruct (location site) as [loc|]; [|done].
  case_bool_decide; [done|]. by destruct (urlParse loc).
Qed.

Lemma omap_parseError_parsed sites :
  (∀ site, site ∈ sites → ∃ h, parsedHostname urlParse site = Some h) →
  omap (parseError urlParse) sites = [].
Proof.
  induction sites as [|s rest IH]; intros Hall; simpl; [reflexivity|].
  destruct (Hall s) as (h & Hh); [left|].
  rewrite (parseError_parsed s h Hh). apply IH.
  intros site Hin. apply Hall. by right.
Qed.

(** X8. Domain uniqueness: every site [removeDuplicateDomains] returns has
    a location that parses to a hostname, and no two sites of the returned
    list, at different positions, parse to the same hostname. *)
Theorem removeDuplicateDomains_unique_hostnames (sites : list Site)
    (w : World) :
  ∃ kept w',
    removeDuplicateDomains urlParse sites w = (Normal kept, w') ∧
    (∀ site, site ∈ kept → ∃ h, parsesTo urlParse site h) ∧
    ∀ i j si sj h,
      kept !! i = Some si → kept !! j = Some sj →
      parsesTo urlParse si h → parsesTo urlParse sj h → i = j.
Proof.
  unfold removeDuplicateDomains. rewrite filterDomains_run.
  eexists _, _. split; [reflexivity|].
  destruct (keptDomains_hostnames sites ∅) as [Hnd Hall]. split.
  - intros site Hin. destruct (Hall site Hin) as (h & Hh & _).
    exists h. by apply parsedHostname_parsesTo.
  - intros i j si sj h Hi Hj Hsi%parsedHostname_parsesTo
      Hsj%parsedHostname_parsesTo.
    apply (NoDup_lookup _ i j (Some h) Hnd);
      rewrite list_lookup_fmap; [by rewrite Hi; simpl; f_equal
                                |by rewrite Hj; simpl; f_equal].
Qed.

(** X9. Deduplicating twice changes nothing more: on the list it returned,
    [removeDuplicateDomains] returns the same list and writes nothing to
    the console. *)
Theorem removeDuplicateDomains_idempotent (sites : list Site) (w : World) :
  ∃ kept w',
    removeDuplicateDomains urlParse sites w = (Normal kept, w') ∧
    removeDuplicateDomains urlParse kept w' = (Normal kept, w').
Proof.
  unfold removeDuplicateDomains. rewrite filterDomains_run.
  eexists _, _. split; [reflexivity|].
  rewrite filterDomains_run.
  destruct (keptDomains_hostnames sites ∅) as [Hnd Hall].
  rewrite keptDomains_fixed by done.
  rewrite (omap_parseError_parsed (keptDomains urlParse ∅ sites)),
    logged_nil; [reflexivity|].
  intros site Hin. destruct (Hall site Hin) as (h & Hh & _). by exists h.
Qed.

End DomainFacts.

(** ** The comparator and the ranked pool *)

(** X10. The comparator is antisymmetric, also on records without count or
    access time: swapping its arguments negates its answer, which is -1, 0
    or 1. *)
Theorem sortCountDescending_antisymmetric (left right : Site) :
  sortCountDescending left right = - sortCountDescending right left ∧
  (sortCountDescending left right = -1 ∨
   sortCountDescending left right = 0 ∨
   sortCountDescending left right = 1).
Proof.
  unfold sortCountDescending.
  destruct (lastAccessedTime left) as [tl|],
           (lastAccessedTime right) as [tr|];
    cbn [jsLt]; split_ltb; lia.
Qed.

Lemma StronglySorted_take {A} (R : A -> A -> Prop) n (l : list A) :
  StronglySorted R l → StronglySorted R (take n l).
Proof.
  intros Hs. revert n.
  induction Hs as [|x rest Hs IH Hx]; intros [|n]; simpl; constructor;
    [apply IH|by apply Forall_take].
Qed.

Lemma StronglySorted_fmap_2 {A B} (R : A -> A -> Prop) (S : B -> B -> Prop)
    (f : A -> B) (l : list A) :
  (∀ x y, R x y → S (f x) (f y)) →
  StronglySorted R l → StronglySorted S (f <$> l).
Proof.
  intros Hf Hs. induction Hs as [|x rest Hs IH Hx]; simpl; constructor;
    [done|].
  rewrite Forall_fmap. eapply Forall_impl; [exact Hx|]. intros y. apply Hf.
Qed.

Section PoolFacts.

Variable isSourceAboutUrl : option string -> bool.

(** X12. The ranked pool holds the candidates up to 100 of them: its
    length is the smaller of 100 and the number of candidates. *)
Theorem pool_length (state : AppState) (w : World) :
  length (pool isSourceAboutUrl state w) =
  (aboutNewTabMaxEntries `min`
     length (List.filter (isCandidate isSourceAboutUrl state w)
               (getSites state)))%nat.
Proof.
  unfold pool, rankSites.
  rewrite length_fmap, length_take. f_equal.
  apply Permutation_length, sortBy_perm.
Qed.

(** X13. With at most 100 candidates the ranking loses none and repeats
    none: the pool is a rearrangement of the candidates, each carrying the
    key of its history entry and its bookmark flag. *)
Theorem pool_keeps_all_candidates (state : AppState) (w : World) :
  (length (List.filter (isCandidate isSourceAboutUrl state w)
             (getSites state)) <= aboutNewTabMaxEntries)%nat →
  pool isSourceAboutUrl state w ≡ₚ
  (fun entry : string * Site =>
     set_key entry.1 (set_bookmarked (bookmarkedOf state entry.2) entry.2))
  <$> List.filter (isCandidate isSourceAboutUrl state w) (getSites state).
Proof.
  intros Hle. unfold pool, rankSites.
  rewrite take_ge.
  - by rewrite sortBy_perm.
  - by rewrite (Permutation_length (sortBy_perm _ _)).
Qed.

End PoolFacts.

Lemma pool_keeps_all_candidates_witness :
  pool Examples.notAbout Examples.tieState Examples.unset ≡ₚ
  (fun entry : string * Site =>
     set_key entry.1
       (set_bookmarked (bookmarkedOf Examples.tieState entry.2) entry.2))
  <$> List.filter
        (isCandidate Examples.notAbout Examples.tieState Examples.unset)
        (getSites Examples.tieState).
Proof.
  apply (pool_keeps_all_candidates Examples.notAbout Examples.tieState
           Examples.unset).
  vm_compute. lia.
Defined.

(** ** The watermarks and the cache clear *)

Lemma foldl_lowerTo_le previous vs v :
  v ∈ vs → ∃ m, foldl lowerTo previous vs = Some m ∧ m <= v.
Proof.
  rewrite foldl_lowerTo. unfold minimumInf.
  induction vs as [|u rest IH]; [by intros ?%elem_of_nil|].
  intros Hin.
  change (∃ m, minInf (Some u)
                 (foldr (fun v acc => minInf (Some v) acc) previous rest)
               = Some m ∧ m <= v).
  destruct (decide (v = u)) as [->|Hne].
  - destruct (foldr _ previous rest) as [x|]; simpl.
    + exists (Z.min u x). split; [done|lia].
    + exists u. split; [done|lia].
  - apply elem_of_cons in Hin as [?|Hin]; [done|].
    destruct (IH Hin) as (m & Hm & Hle). rewrite Hm. simpl.
    exists (Z.min u m). split; [done|lia].
Qed.

Section CacheFacts.

Variable isSourceAboutUrl : option string -> bool.
Variable urlParse : string -> Completion Url.
Variable staticData : list Site.

(** X14. After a run both watermarks are lower bounds of the pool it
    ranked: each has a value when the pool is not empty, at most the count,
    respectively the access time (0 when absent), of every pooled site. *)
Theorem watermarks_bound_pool (state : AppState) (w : World) :
  ∃ grid w',
    getTopSiteData isSourceAboutUrl urlParse staticData state w =
      (Normal grid, w') ∧
    ∀ site, site ∈ pool isSourceAboutUrl state w →
      (∃ m, minCountOfTopSites w' = Some m ∧ m <= orZero (count site)) ∧
      (∃ m, minAccessOfTopSites w' = Some m ∧
            m <= orZero (lastAccessedTime site)).
Proof.
  rewrite getTopSiteData_run. eexists _, _. split; [reflexivity|].
  intros site Hin. simpl. split; apply foldl_lowerTo_le.
  - apply list_elem_of_fmap. by exists site.
  - apply list_elem_of_fmap. by exists site.
Qed.

(** X15. A cache clear resets the filtering: right after
    [clearTopSiteCacheData] the candidate filter retains every history
    entry whose location is not a source-about URL and whose key is neither
    pinned nor ignored, whatever its count and access time and whatever the
    watermarks were. *)
Theorem clear_resets_filter (state : AppState) (w : World) :
  ∃ candidates,
    (clearTopSiteCacheData ≫= fun _ => candidateSites isSourceAboutUrl state)
      w =
      (Normal candidates,
       {| minCountOfTopSites := None; minAccessOfTopSites := None;
          console := console w |}) ∧
    ∀ k site,
      (k, site) ∈ candidates ↔
      (k, site) ∈ getSites state ∧
      isSourceAboutUrl (location site) = false ∧
      (∀ p, Some p ∈ getPinnedTopSites state → key p ≠ Some k) ∧
      (k ∉ getIgnoredTopSites state).
Proof.
  eexists. split; [reflexivity|].
  intros k site.
  rewrite list_elem_of_In, filter_In, <- list_elem_of_In, isCandidate_true.
  simpl. split.
  - intros (? & ? & ? & ? & _ & _). done.
  - intros (? & ? & ? & ?). repeat split; try done; by intros ? [=].
Qed.

Lemma isCandidate_rerun state w k s :
  (length (List.filter (isCandidate isSourceAboutUrl state w)
             (getSites state)) <= aboutNewTabMaxEntries)%nat →
  (k, s) ∈ getSites state →
  isCandidate isSourceAboutUrl state
    (worldAfter isSourceAboutUrl urlParse state w) (k, s) =
  isCandidate isSourceAboutUrl state w (k, s).
Proof.
  intros Hle Hin.
  set (w1 := worldAfter isSourceAboutUrl urlParse state w).
  destruct (isCandidate isSourceAboutUrl state w (k, s)) eqn:Hc.
  - (* a candidate is in the pool, which the new watermarks bound *)
    assert (Hpool : set_key k (set_bookmarked (bookmarkedOf state s) s)
                      ∈ pool isSourceAboutUrl state w).
    { unfold pool, rankSites. rewrite take_ge.
      - apply list_elem_of_fmap. exists (k, s). split; [done|].
        apply sortBy_elem, list_elem_of_In, filter_In.
        split; [by apply list_elem_of_In|done].
      - by rewrite (Permutation_length (sortBy_perm _ _)). }
    apply isCandidate_true. apply isCandidate_true in Hc
      as (Ha & Hp & Hi & _ & _).
    repeat split; try done.
    + intros m Hm.
      destruct (foldl_lowerTo_le (minCountOfTopSites w)
                  ((orZero ∘ count) <$> pool isSourceAboutUrl state w)
                  (orZero (count s))) as (m' & Hm' & Hle').
      { apply list_elem_of_fmap. by eexists; split; [|exact Hpool]. }
      subst w1. simpl in Hm. congruence.
    + intros m Hm.
      destruct (foldl_lowerTo_le (minAccessOfTopSites w)
                  ((orZero ∘ lastAccessedTime) <$>
                     pool isSourceAboutUrl state w)
                  (orZero (lastAccessedTime s))) as (m' & Hm' & Hle').
      { apply list_elem_of_fmap. by eexists; split; [|exact Hpool]. }
      subst w1. simpl in Hm. congruence.
  - (* what excluded the entry excludes it again *)
    apply not_true_iff_false. intros Hc1. apply not_true_iff_false in Hc.
    apply Hc. apply isCandidate_true. apply isCandidate_true in Hc1
      as (Ha & Hp & Hi & Hmc & Hma).
    repeat split; try done.
    + intros m Hm. apply Hmc. by apply worldAfter_minCount_set.
    + intros m Hm. apply Hma. by apply worldAfter_minAccess_set.
Qed.

(** X17. Recomputing without a change is stable: when the history has at
    most 100 candidates, a second run on the same application state emits
    the same grid as the first and leaves both watermarks as the first run
    set them; only the errors of the locations that do not parse are
    written to the console again. *)
Theorem rerun_same_grid (state : AppState) (w : World) :
  (length (List.filter (isCandidate isSourceAboutUrl state w)
             (getSites state)) <= aboutNewTabMaxEntries)%nat →
  ∃ grid w1,
    getTopSiteData isSourceAboutUrl urlParse staticData state w =
      (Normal grid, w1) ∧
    getTopSiteData isSourceAboutUrl urlParse staticData state w1 =
      (Normal grid,
       logged w1 (omap (parseError urlParse)
                       (pool isSourceAboutUrl state w))).
Proof.
  intros Hle. rewrite getTopSiteData_run. eexists _, _.
  split; [reflexivity|]. rewrite getTopSiteData_run.
  set (w1 := worldAfter isSourceAboutUrl urlParse state w).
  assert (Hpool : pool isSourceAboutUrl state w1 =
                  pool isSourceAboutUrl state w).
  { unfold pool. f_equal. apply filter_ext_in. intros [k s] Hin.
    apply isCandidate_rerun; [done|by apply list_elem_of_In]. }
  unfold fillSites, worldAfter at 1. rewrite !Hpool.
  f_equal. unfold logged. f_equal.
  - destruct (minCountOfTopSites w1) as [m|] eqn:Hm.
    + apply foldl_lowerTo_bounded. intros v Hv.
      apply list_elem_of_fmap in Hv as (site & -> & Hin).
      destruct (foldl_lowerTo_le (minCountOfTopSites w)
                  ((orZero ∘ count) <$> pool isSourceAboutUrl state w)
                  ((orZero ∘ count) site)) as (m' & Hm' & Hle').
      { apply list_elem_of_fmap. by exists site. }
      subst w1. simpl in Hm. congruence.
    + subst w1. simpl in Hm.
      destruct (pool isSourceAboutUrl state w) as [|site rest] eqn:Hp;
        [reflexivity|].
      destruct (foldl_lowerTo_le (minCountOfTopSites w)
                  ((orZero ∘ count) <$> (site :: rest))
                  ((orZero ∘ count) site)) as (m' & Hm' & _); [left|].
      congruence.
  - destruct (minAccessOfTopSites w1) as [m|] eqn:Hm.
    + apply foldl_lowerTo_bounded. intros v Hv.
      apply list_elem_of_fmap in Hv as (site & -> & Hin).
      destruct (foldl_lowerTo_le (minAccessOfTopSites w)
                  ((orZero ∘ lastAccessedTime) <$>
                     pool isSourceAboutUrl state w)
                  ((orZero ∘ lastAccessedTime) site)) as (m' & Hm' & Hle').
      { apply list_elem_of_fmap. by exists site. }
      subst w1. simpl in Hm. congruence.
    + subst w1. simpl in Hm.
      destruct (pool isSourceAboutUrl state w) as [|site rest] eqn:Hp;
        [reflexivity|].
      destruct (foldl_lowerTo_le (minAccessOfTopSites w)
                  ((orZero ∘ lastAccessedTime) <$> (site :: rest))
                  ((orZero ∘ lastAccessedTime) site)) as (m' & Hm' & _);
        [left|].
      congruence.
Qed.

End CacheFacts.

Lemma rerun_same_grid_witness :
  ∃ grid w1,
    getTopSiteData Examples.notAbout Examples.parse Examples.catalog
      Examples.mixed Examples.unset = (Normal grid, w1) ∧
    getTopSiteData Examples.notAbout Examples.parse Examples.catalog
      Examples.mixed w1 =
      (Normal grid,
       logged w1 (omap (parseError Examples.parse)
                       (pool Examples.notAbout Examples.mixed
                          Examples.unset))).
Proof.
  apply (rerun_same_grid Examples.notAbout Examples.parse Examples.catalog
           Examples.mixed Examples.unset).
  vm_compute. lia.
Defined.

(** ** The ranked pool of timed records *)

Section RankedOrder.

Variable isSourceAboutUrl : option string -> bool.

(** X18. When every candidate carries an access time the ranked pool is in
    the ranker's order: descending by count (0 when absent) and, among
    equal counts, descending by access time. *)
Theorem pool_ranked_when_timed (state : AppState) (w : World) :
  Forall (fun e : string * Site => is_Some (lastAccessedTime e.2))
         (List.filter (isCandidate isSourceAboutUrl state w)
            (getSites state)) →
  StronglySorted ranksNoLater (pool isSourceAboutUrl state w).
Proof.
  intros Htimes. unfold pool, rankSites.
  apply (StronglySorted_fmap_2
           (fun l r : string * Site => ranksNoLater l.2 r.2)); [done|].
  apply StronglySorted_take.
  by apply sort_descending_stable.
Qed.

End RankedOrder.

Lemma pool_ranked_when_timed_witness :
  StronglySorted ranksNoLater
    (pool Examples.notAbout Timed.history Examples.unset).
Proof.
  apply (pool_ranked_when_timed Examples.notAbout Timed.history
           Examples.unset).
  repeat constructor; by eexists.
Defined.

(** The pool of the timed history: the largest count first, then the later
    access. *)
Example timed_pool_keys :
  key <$> pool Examples.notAbout Timed.history Examples.unset =
  [Some "hi"%string; Some "mid"%string; Some "lo"%string].
Proof. vm_compute. reflexivity. Qed.
